(** * Robo AI - Video Frame OCR Extractor: a shallow embedding

    The development follows the three source files of the application:

    - [App] (the React component): the text normalisation [getUniqueWords],
      the exclusion list (its creation from local storage, [handleAddExcludedWord],
      [handleRemoveExcludedWord], [handleWordDoubleClick]) and [downloadCsv];
    - [geminiService]: [dataUrlToPart] and the OCR loop [analyzeFramesForText];
    - [videoUtils]: the frame sampler [extractFramesFromVideo], as the event
      handlers it registers on the video element.

    Data model.  A JavaScript string is a [string] of the Standard Library,
    read as the sequence of its code units.  The character classes of the
    source ([\w], [\d]) are ASCII classes, so a word token is an ASCII
    string and a code unit above 127 always separates tokens.  [toLowerCase]
    and [trim] are modelled on the ASCII range (the letters [A-Z]; tab, line
    feed, vertical tab, form feed, carriage return and space) and leave
    every other code unit alone.  A JavaScript number that holds a time is a
    rational [Q] (every finite double is one), compared exactly.  The
    sampler's counter holds an integer-valued double and is a [Z]; adding
    one to it rounds as doubles do ([JS.increment]), so it is exact up to
    2^53 and stalls or skips beyond.  The total of the progress text, a
    rounded difference printed by the engine, is taken from the browser.

    Effects.  Code that may throw returns a [Completion]; [try]/[catch] is
    [tryCatch].  Calls of [onProgress], [console.error],
    [URL.revokeObjectURL] and the DOM are recorded in the state that the
    functions pass along.  The browser, the OCR service, [localStorage] and
    [JSON.parse] are parameters. *)

From Stdlib Require Import List String Ascii Bool Arith ZArith QArith Qround Lia.
From Stdlib Require Import Sorting.Sorted Sorting.Permutation.
From Stdlib Require Import Numbers.DecimalString.
Import ListNotations.

Local Close Scope Q_scope.
Local Open Scope list_scope.
Local Open Scope string_scope.

(** ** JavaScript strings and arrays *)

Module JS.

(** [between lo c hi]: the code unit [c] lies in the range [lo..hi]. *)
Definition between (lo : nat) (c : ascii) (hi : nat) : bool :=
  (lo <=? nat_of_ascii c)%nat && (nat_of_ascii c <=? hi)%nat.

Definition isUpper (c : ascii) : bool := between 65 c 90.
Definition isLower (c : ascii) : bool := between 97 c 122.

(** The class [\d]. *)
Definition isDigit (c : ascii) : bool := between 48 c 57.

(** The class [\w]: [A-Za-z0-9_]. *)
Definition isWordChar (c : ascii) : bool :=
  isUpper c || isLower c || isDigit c || (nat_of_ascii c =? 95)%nat.

(** White space and line terminators stripped by [String.prototype.trim]. *)
Definition isWhite (c : ascii) : bool :=
  between 9 c 13 || (nat_of_ascii c =? 32)%nat.

(** Line terminators, which [.] does not match. *)
Definition isLineTerminator (c : ascii) : bool :=
  (nat_of_ascii c =? 10)%nat || (nat_of_ascii c =? 13)%nat.

Definition lowerChar (c : ascii) : ascii :=
  if isUpper c then ascii_of_nat (nat_of_ascii c + 32) else c.

(** [s.toLowerCase()] *)
Fixpoint toLowerCase (s : string) : string :=
  match s with
  | EmptyString => EmptyString
  | String c r => String (lowerChar c) (toLowerCase r)
  end.

Fixpoint allChars (p : ascii -> bool) (s : string) : bool :=
  match s with
  | EmptyString => true
  | String c r => p c && allChars p r
  end.

Fixpoint dropWhite (s : string) : string :=
  match s with
  | EmptyString => EmptyString
  | String c r => if isWhite c then dropWhite r else s
  end.

Fixpoint dropWhiteEnd (s : string) : string :=
  match s with
  | EmptyString => EmptyString
  | String c r =>
      match dropWhiteEnd r with
      | EmptyString => if isWhite c then EmptyString else String c EmptyString
      | r' => String c r'
      end
  end.

(** [s.trim()]: white space is dropped at both ends. *)
Definition trim (s : string) : string := dropWhiteEnd (dropWhite s).

(** Truthiness of a string: only the empty string is falsy. *)
Definition truthy (s : string) : bool :=
  match s with EmptyString => false | String _ _ => true end.

(** [/^\d+$/.test(s)] *)
Definition isNumeric (s : string) : bool := truthy s && allChars isDigit s.

(** [a.join(sep)] *)
Definition join (sep : string) (a : list string) : string := String.concat sep a.

(** [a.includes(x)] for an array of strings; also [new Set(a).has(x)]. *)
Definition includes (a : list string) (x : string) : bool :=
  existsb (String.eqb x) a.

(** [Array.from(new Set(a))]: a [Set] keeps the first occurrence of every
    value, in insertion order. *)
Fixpoint uniq (seen : list string) (a : list string) : list string :=
  match a with
  | [] => []
  | x :: r => if includes seen x then uniq seen r else x :: uniq (x :: seen) r
  end.

Definition fromSet (a : list string) : list string := uniq [] a.

(** [a.sort()] on strings with the default comparison, which orders
    strings by their code units.  The order is total and equal strings are
    identical, so every sorting algorithm returns the same array; insertion
    sort is used here. *)
Fixpoint insert (x : string) (a : list string) : list string :=
  match a with
  | [] => [x]
  | y :: r => if String.leb x y then x :: a else y :: insert x r
  end.

Fixpoint sort (a : list string) : list string :=
  match a with
  | [] => []
  | x :: r => insert x (sort r)
  end.

Definition flush (acc : string) : list string :=
  match acc with EmptyString => [] | _ => [acc] end.

(** [s.match(/\b\w+\b/g) || []]: the maximal runs of word characters of
    [s], from left to right.  [acc] is the run being read. *)
Fixpoint wordRuns (acc : string) (s : string) : list string :=
  match s with
  | EmptyString => flush acc
  | String c r =>
      if isWordChar c then wordRuns (acc ++ String c EmptyString) r
      else (flush acc ++ wordRuns EmptyString r)%list
  end.

Definition matchWords (s : string) : list string := wordRuns EmptyString s.

(** [s.split(sep)] for a one-character separator. *)
Fixpoint splitAux (sep : ascii) (acc : string) (s : string) : list string :=
  match s with
  | EmptyString => [acc]
  | String c r =>
      if Ascii.eqb c sep then acc :: splitAux sep EmptyString r
      else splitAux sep (acc ++ String c EmptyString) r
  end.

Definition split (sep : ascii) (s : string) : list string :=
  splitAux sep EmptyString s.

(** The integer-valued double nearest to the integer [n], ties going to the
    even significand: [n] itself up to 2^53 in size, a multiple of the
    spacing of the doubles beyond.  (No overflow is modelled: the function is
    applied to one more than a double.) *)
Definition nearestDouble (n : Z) : Z :=
  let a := Z.abs n in
  if (a <=? 2 ^ 53)%Z then n
  else
    let unit := (2 ^ (Z.log2 a - 52))%Z in
    let q := (a / unit)%Z in
    let r := (a mod unit)%Z in
    let q' :=
      if (2 * r <? unit)%Z then q
      else if (unit <? 2 * r)%Z then (q + 1)%Z
      else if Z.even q then q else (q + 1)%Z in
    (Z.sgn n * (q' * unit))%Z.

(** [x++] on a number that holds an integer: the new value of [x]. *)
Definition increment (x : Z) : Z := nearestDouble (x + 1).

(** The integers that are doubles. *)
Definition isDouble (n : Z) : Prop := nearestDouble n = n.

(** Template-literal rendering of a non-negative integer. *)
Definition showNat (n : nat) : string := NilEmpty.string_of_uint (Nat.to_uint n).

Definition showZ (z : Z) : string := NilEmpty.string_of_int (Z.to_int z).

(** The line feed, written ["\n"] in the source. *)
Definition LF : ascii := ascii_of_nat 10.

(** Characters [encodeURI] leaves alone: letters, digits and
    [; / ? : @ & = + $ , - _ . ! ~ * ' ( ) #]. *)
Definition uriKept (c : ascii) : bool :=
  let n := nat_of_ascii c in
  isUpper c || isLower c || isDigit c
  || existsb (Nat.eqb n) [59; 47; 63; 58; 64; 38; 61; 43; 36; 44;
                          45; 95; 46; 33; 126; 42; 39; 40; 41; 35].

Definition hexDigit (n : nat) : ascii :=
  if (n <? 10)%nat then ascii_of_nat (48 + n) else ascii_of_nat (55 + n).

(** [encodeURI(s)]: every other code unit becomes [%XX], in upper case. *)
Fixpoint encodeURI (s : string) : string :=
  match s with
  | EmptyString => EmptyString
  | String c r =>
      if uriKept c then String c (encodeURI r)
      else
        let n := nat_of_ascii c in
        String "%" (String (hexDigit (n / 16)) (String (hexDigit (n mod 16))
                                                       (encodeURI r)))
  end.

(** What evaluating a piece of code may do: complete with a value or throw
    (for an awaited promise: fulfil or reject). *)
Inductive Completion (A : Type) : Type :=
| Normal (a : A)
| Throw (error : string).
Arguments Normal {A} a.
Arguments Throw {A} error.

Definition bind {A B} (m : Completion A) (k : A -> Completion B) : Completion B :=
  match m with
  | Normal a => k a
  | Throw e => Throw e
  end.

(** [try { body } catch (e) { handler(e) }] *)
Definition tryCatch {A} (body : Completion A) (handler : string -> A) : A :=
  match body with
  | Normal a => a
  | Throw e => handler e
  end.

(** Values [JSON.parse] can return. *)
#[local] Set Warnings "-register-all".
Inductive Value : Type :=
| VNull
| VBool (b : bool)
| VNumber (q : Q)
| VString (s : string)
| VArray (items : list Value)
| VObject (fields : list (string * Value)).

(** [typeof v === 'string'] *)
Definition isString (v : Value) : bool :=
  match v with VString _ => true | _ => false end.

(** [Array.isArray(v)], with the elements when it holds. *)
Definition asArray (v : Value) : option (list Value) :=
  match v with VArray items => Some items | _ => None end.

Definition stringOf (v : Value) : string :=
  match v with VString s => s | _ => EmptyString end.

End JS.

Notation "x <- m ;; k" := (JS.bind m (fun x => k))
  (at level 61, m at next level, right associativity).

(** ** App: text normalisation, exclusion list and CSV export *)

Module App.

Import JS.

Definition LOCAL_STORAGE_KEY : string :=
  "robo-ai-video-ocr-extractor-excluded-words".

Definition INITIAL_EXCLUDED_WORDS : list string :=
  ["daily"; "get"; "guest"; "host"; "id"; "join"; "list"; "live";
   "month"; "monthly"; "vip"; "weekly"; "x"; "y"; "rank"; "ranked";
   "ream"; "resting"; "roam"].

(** The platform the component runs on: [localStorage.getItem] returns
    [null] (here [None]) or the stored text, or throws; [JSON.parse]
    returns a value or throws a [SyntaxError]. *)
Record Platform : Type := {
  getItem : string -> Completion (option string);
  JSON_parse : string -> Completion Value
}.

(** The body of the [try] block of the initialiser of [excludedWords]:
    [Some a] when it executes [return parsed], [None] when it falls out
    of the block. *)
Definition readSaved (pf : Platform) : Completion (option (list string)) :=
  saved <- getItem pf LOCAL_STORAGE_KEY ;;
  match saved with
  | None => Normal None
  | Some text =>
      if truthy text then
        parsed <- JSON_parse pf text ;;
        match asArray parsed with
        | Some items =>
            if forallb isString items
            then Normal (Some (map stringOf items))
            else Normal None
        | None => Normal None
        end
      else Normal None
  end.

(** The initial value of the state [excludedWords]. *)
Definition initExcludedWords (pf : Platform) : list string :=
  match tryCatch (readSaved pf) (fun _ => None) with
  | Some parsed => parsed
  | None => INITIAL_EXCLUDED_WORDS
  end.

(** [getUniqueWords(textBlocks, excluded)] *)
Definition getUniqueWords (textBlocks : list string) (excluded : list string)
  : list string :=
  let allText := JS.join " " textBlocks in
  let words := JS.matchWords allText in
  let lowercasedWords := map JS.toLowerCase words in
  let excludedSet := map JS.toLowerCase excluded in
  let filteredWords :=
    filter (fun word =>
              let isNumeric := JS.isNumeric word in
              let isExcluded := JS.includes excludedSet word in
              negb isNumeric && negb isExcluded)
           lowercasedWords in
  JS.sort (JS.fromSet filteredWords).


(** The part of the component's state the handlers below touch. *)
Record State : Type := {
  excludedWords : list string;
  uniqueWords : list string;
  newExcludedWord : string
}.

Definition setExcludedWords (a : list string) (s : State) : State :=
  {| excludedWords := a; uniqueWords := uniqueWords s;
     newExcludedWord := newExcludedWord s |}.

Definition setUniqueWords (a : list string) (s : State) : State :=
  {| excludedWords := excludedWords s; uniqueWords := a;
     newExcludedWord := newExcludedWord s |}.

Definition setNewExcludedWord (w : string) (s : State) : State :=
  {| excludedWords := excludedWords s; uniqueWords := uniqueWords s;
     newExcludedWord := w |}.

Definition handleAddExcludedWord (s : State) : State :=
  let wordToAdd := toLowerCase (trim (newExcludedWord s)) in
  let s' :=
    if truthy wordToAdd && negb (includes (excludedWords s) wordToAdd)
    then setExcludedWords (sort (excludedWords s ++ [wordToAdd])%list) s
    else s in
  setNewExcludedWord "" s'.

Definition handleRemoveExcludedWord (wordToRemove : string) (s : State) : State :=
  setExcludedWords
    (filter (fun word => negb (String.eqb word wordToRemove)) (excludedWords s)) s.

Definition handleWordDoubleClick (wordToExclude : string) (s : State) : State :=
  let s' :=
    if negb (includes (excludedWords s) wordToExclude)
    then setExcludedWords (sort (excludedWords s ++ [wordToExclude])%list) s
    else s in
  setUniqueWords
    (filter (fun w => negb (String.eqb w wordToExclude)) (uniqueWords s')) s'.

(** What [downloadCsv] does to the document. *)
Record Link : Type := { href : string; download : string }.

Inductive DomEffect : Type :=
| AppendChild (link : Link)
| Click (link : Link)
| RemoveChild (link : Link).

Definition csvHeader : string := "Extracted Words".

(** The text after the [data:] prefix: ["Extracted Words\n"] and the words
    joined by ["\n"]. *)
Definition csvPayload (words : list string) : string :=
  csvHeader ++ String LF EmptyString ++ join (String LF EmptyString) words.

Definition downloadCsv (s : State) : list DomEffect :=
  match uniqueWords s with
  | [] => []
  | _ :: _ =>
      let csvContent := "data:text/csv;charset=utf-8," ++ csvPayload (uniqueWords s) in
      let encodedUri := encodeURI csvContent in
      let link := {| href := encodedUri; download := "extracted_words.csv" |} in
      [AppendChild link; Click link; RemoveChild link]
  end.

End App.

(** ** types: a sampled frame *)

Record Frame : Type := {
  id : Z;
  imageDataUrl : string
}.

(** ** geminiService: the OCR loop *)

Module GeminiService.

Import JS.

Record Part : Type := {
  data : option string;   (* [undefined] when the URL has no comma *)
  mimeType : string
}.

(** A greedy "any characters" group followed by the literal [pat], tried
    at the start of [s]: the longest run of characters without a line
    terminator that is followed by [pat]. *)
Fixpoint dotStarThen (pat : string) (s : string) : option string :=
  match s with
  | EmptyString => if String.prefix pat s then Some EmptyString else None
  | String c r =>
      let longer :=
        if isLineTerminator c then None
        else option_map (String c) (dotStarThen pat r) in
      match longer with
      | Some g => Some g
      | None => if String.prefix pat s then Some EmptyString else None
      end
  end.

(** The match of [dataUrl] against the pattern "data:", any characters,
    ";base64," anchored at the start, reduced to its capture group. *)
Definition matchDataUrl (dataUrl : string) : option string :=
  if String.prefix "data:" dataUrl
  then dotStarThen ";base64," (String.substring 5 (String.length dataUrl - 5) dataUrl)
  else None.

Definition dataUrlToPart (dataUrl : string) : Completion Part :=
  let base64Data := nth_error (split "," dataUrl) 1 in
  match matchDataUrl dataUrl with
  | None => Throw "Invalid data URL format"
  | Some mime => Normal {| data := base64Data; mimeType := mime |}
  end.

Definition ocrPrompt : string :=
  "Perform OCR on this image. Extract all visible text. Return only the extracted text, with individual words separated by single spaces. If no text is found, return an empty response.".

Record GenerateContentParameters : Type := {
  model : string;
  imagePart : Part;
  textPart : string
}.

(** The OCR collaborator.  [generateContent i request] is what awaiting
    the request of loop iteration [i] and reading [response.text] gives:
    the text ([None] for [undefined]), or an error.  The index lets the
    service answer two equal requests differently. *)
Record Client : Type := {
  generateContent : nat -> GenerateContentParameters -> Completion (option string)
}.

(** What the function has done so far. *)
Record Run : Type := {
  allWords : list string;
  progress : list string;            (* messages passed to [onProgress] *)
  consoleErrors : list (Z * string)  (* frame id and error, per [console.error] *)
}.

Definition onProgress (message : string) (r : Run) : Run :=
  {| allWords := allWords r; progress := (progress r ++ [message])%list;
     consoleErrors := consoleErrors r |}.

Definition push (text : string) (r : Run) : Run :=
  {| allWords := (allWords r ++ [text])%list; progress := progress r;
     consoleErrors := consoleErrors r |}.

Definition consoleError (frameId : Z) (error : string) (r : Run) : Run :=
  {| allWords := allWords r; progress := progress r;
     consoleErrors := (consoleErrors r ++ [(frameId, error)])%list |}.

(** The statements of the [try] block up to [const text = response.text]. *)
Definition requestText (ai : Client) (i : nat) (frame : Frame)
  : Completion (option string) :=
  imagePart <- dataUrlToPart (imageDataUrl frame) ;;
  generateContent ai i
    {| model := "gemini-2.5-pro"; imagePart := imagePart; textPart := ocrPrompt |}.

(** The whole [try] block: [if (text) allWords.push(text)]. *)
Definition tryBlock (ai : Client) (i : nat) (frame : Frame) (r : Run)
  : Completion Run :=
  text <- requestText ai i frame ;;
  match text with
  | Some t => if truthy t then Normal (push t r) else Normal r
  | None => Normal r
  end.

(** One iteration of the [for] loop; [n] is [frames.length]. *)
Definition iteration (ai : Client) (n i : nat) (frame : Frame) (r : Run) : Run :=
  let r :=
    onProgress ("Analyzing frame " ++ showNat (i + 1) ++ " of " ++ showNat n
                ++ " with Gemini...") r in
  tryCatch (tryBlock ai i frame r)
    (fun error =>
       onProgress ("Skipping frame " ++ showNat (i + 1) ++ " due to an error.")
         (consoleError (id frame) error r)).

Fixpoint loop (ai : Client) (n i : nat) (frames : list Frame) (r : Run) : Run :=
  match frames with
  | [] => r
  | frame :: rest => loop ai n (S i) rest (iteration ai n i frame r)
  end.

Definition start : Run := {| allWords := []; progress := []; consoleErrors := [] |}.

(** [analyzeFramesForText(frames, onProgress)].  [newGoogleGenAI] is the
    outcome of [new GoogleGenAI({ apiKey })], which the source evaluates
    before the loop and outside every [try]. *)
Definition analyzeFramesForText (newGoogleGenAI : Completion Client)
  (frames : list Frame) : Completion Run :=
  ai <- newGoogleGenAI ;;
  Normal (loop ai (List.length frames) 0 frames start).

(** The promise's value: [return allWords]. *)
Definition returned (c : Completion Run) : Completion (list string) :=
  r <- c ;; Normal (allWords r).

End GeminiService.

(** ** videoUtils: the frame sampler *)

Module VideoUtils.

Import JS.

(** What the browser supplies to one extraction run. *)
Record Browser : Type := {
  context : bool;               (* [canvas.getContext('2d')] is not [null] *)
  videoWidth : nat;
  videoHeight : nat;
  (* [canvas.toDataURL('image/jpeg', 0.8)] after drawing the video, at the
     canvas size and the position the video has been moved to *)
  toDataURL : nat * nat -> Z -> string;
  (* the text of [Math.max(1, Math.floor(endTime - startTime))] in a
     template literal, given [startTime] and [endTime]: the engine subtracts
     in double arithmetic, which rounds, and prints the shortest digits *)
  totalText : Q -> Q -> string
}.

(** The promise returned by [extractFramesFromVideo]. *)
Inductive Promise : Type :=
| Pending
| Resolved (frames : list Frame)
| Rejected (reason : string).

(** Settling a promise that is settled already does nothing. *)
Definition settle (p new : Promise) : Promise :=
  match p with Pending => new | _ => p end.

(** [resolve(frames)] hands out the array [frames] itself, not a copy: a
    promise that is resolved holds that array, whatever is pushed into it
    later.  [held p frames'] is [p] once the array has become [frames']. *)
Definition held (p : Promise) (frames' : list Frame) : Promise :=
  match p with Resolved _ => Resolved frames' | _ => p end.

Record Sampler : Type := {
  frames : list Frame;
  currentTime : Z;
  canvas : nat * nat;
  position : Z;            (* [video.currentTime], as last reached *)
  seeking : option Z;      (* a position assigned to [video.currentTime]
                              whose [seeked] event has not fired yet *)
  promise : Promise;
  revoked : nat;           (* calls of [URL.revokeObjectURL(videoUrl)] *)
  progress : list string   (* messages passed to [onProgress] *)
}.

Inductive Event : Type :=
| loadedmetadata
| seeked
| error (message : option string).  (* [video.error?.message] *)

Section Run.

Variable browser : Browser.
Variables startTime endTime : Q.

(** [Math.max(1, Math.floor(endTime - startTime))], as the progress text
    shows it. *)
Definition totalFrames : string := totalText browser startTime endTime.

(** The state when the executor of the promise returns. *)
Definition created : Sampler :=
  {| frames := []; currentTime := Qfloor startTime; canvas := (300, 150);
     position := 0%Z; seeking := None; promise := Pending; revoked := 0;
     progress := [] |}.

Definition captureFrame (s : Sampler) : Sampler :=
  if negb (context browser) then
    {| frames := frames s; currentTime := currentTime s; canvas := canvas s;
       position := position s; seeking := seeking s;
       promise := settle (promise s) (Rejected "Canvas context is not available.");
       revoked := revoked s; progress := progress s |}
  else
    let imageDataUrl := toDataURL browser (canvas s) (position s) in
    let frames' :=
      (frames s ++ [{| id := currentTime s; imageDataUrl := imageDataUrl |}])%list in
    let progress' :=
      (progress s ++ [("Extracted frame " ++ showNat (List.length frames')
                       ++ " of " ++ totalFrames)%string])%list in
    let currentTime' := increment (currentTime s) in
    if Qle_bool (inject_Z currentTime') endTime then
      {| frames := frames'; currentTime := currentTime'; canvas := canvas s;
         position := position s; seeking := Some currentTime';
         promise := held (promise s) frames'; revoked := revoked s;
         progress := progress' |}
    else
      {| frames := frames'; currentTime := currentTime'; canvas := canvas s;
         position := position s; seeking := seeking s;
         promise := settle (held (promise s) frames') (Resolved frames');
         revoked := S (revoked s); progress := progress' |}.

Definition onLoadedMetadata (s : Sampler) : Sampler :=
  {| frames := frames s; currentTime := currentTime s;
     canvas := (videoWidth browser, videoHeight browser);
     position := position s; seeking := Some (currentTime s);
     promise := promise s; revoked := revoked s; progress := progress s |}.

Definition onError (message : option string) (s : Sampler) : Sampler :=
  let text :=
    match message with
    | Some m => if truthy m then m else "Unknown error"
    | None => "Unknown error"
    end in
  {| frames := frames s; currentTime := currentTime s; canvas := canvas s;
     position := position s; seeking := seeking s;
     promise := settle (promise s) (Rejected ("Error loading video: " ++ text));
     revoked := S (revoked s); progress := progress s |}.

(** The video reaches the position it was asked to seek to. *)
Definition arrive (s : Sampler) : Sampler :=
  match seeking s with
  | Some t =>
      {| frames := frames s; currentTime := currentTime s; canvas := canvas s;
         position := t; seeking := None; promise := promise s;
         revoked := revoked s; progress := progress s |}
  | None => s
  end.

(** The listeners registered on the video element. *)
Definition dispatch (s : Sampler) (e : Event) : Sampler :=
  match e with
  | loadedmetadata => onLoadedMetadata s
  | seeked => captureFrame (arrive s)
  | error message => onError message s
  end.

(** Any sequence of events, from the creation of the promise. *)
Definition after (events : list Event) : Sampler :=
  fold_left dispatch events created.

(** A media element that plays along: it fires [seeked] once for each
    assignment to [video.currentTime], at most [fuel] times. *)
Fixpoint answerSeeks (fuel : nat) (s : Sampler) : Sampler :=
  match fuel with
  | O => s
  | S k =>
      match seeking s with
      | Some _ => answerSeeks k (dispatch s seeked)
      | None => s
      end
  end.

(** [extractFramesFromVideo(videoFile, startTime, endTime, onProgress)]
    on such a media element: [video.load()], the [loadedmetadata] event,
    then the [seeked] events. *)
Definition extractFramesFromVideo (fuel : nat) : Sampler :=
  answerSeeks fuel (dispatch created loadedmetadata).

End Run.

End VideoUtils.

(** ** Vocabulary for the statements about the sampler *)

Module SamplerSpec.

Import VideoUtils.

(** The integers [c, c+1, ..., c+n-1]. *)
Fixpoint zrange (c : Z) (n : nat) : list Z :=
  match n with
  | O => []
  | S k => c :: zrange (c + 1) k
  end.

(** The frame captured once the video has reached second [k]. *)
Definition frameAt (browser : Browser) (cv : nat * nat) (k : Z) : Frame :=
  {| id := k; imageDataUrl := toDataURL browser cv k |}.

(** What an engine prints for the total when the difference of the two
    times is a double itself, as it is for whole and half seconds of
    ordinary size. *)
Definition exactTotal (startTime endTime : Q) : string :=
  JS.showZ (Z.max 1 (Qfloor (endTime - startTime))).

(** A browser whose canvas context exists and whose frames are labelled by
    the second they show, and one without a canvas context. *)
Definition sampleBrowser : Browser :=
  {| context := true; videoWidth := 640; videoHeight := 360;
     toDataURL := fun _ t => ("data:image/jpeg;base64," ++ JS.showZ t)%string;
     totalText := exactTotal |}.

Definition noContextBrowser : Browser :=
  {| context := false; videoWidth := 640; videoHeight := 360;
     toDataURL := fun _ t => ("data:image/jpeg;base64," ++ JS.showZ t)%string;
     totalText := exactTotal |}.

(** The largest integer up to which every integer is a double. *)
Definition maxSafe : Z := 2 ^ 53.

End SamplerSpec.

(** ** Vocabulary for the statements about the OCR loop *)

Module OcrSpec.

Import JS GeminiService.

(** What a response contributes to the result: its text when the request
    succeeded with a non-empty text, nothing otherwise. *)
Definition kept (response : Completion (option string)) : list string :=
  match response with
  | Normal (Some t) => if truthy t then [t] else []
  | Normal None => []
  | Throw _ => []
  end.

(** The responses to the frames handled by iterations [i], [i + 1], ... *)
Fixpoint responses (ai : Client) (i : nat) (frames : list Frame)
  : list (Completion (option string)) :=
  match frames with
  | [] => []
  | frame :: rest => requestText ai i frame :: responses ai (S i) rest
  end.

Definition textBlocks (ai : Client) (i : nat) (frames : list Frame) : list string :=
  flat_map kept (responses ai i frames).

(** The request of iteration [i] for a frame whose image gave [part]. *)
Definition requestFor (part : Part) : GenerateContentParameters :=
  {| model := "gemini-2.5-pro"; imagePart := part; textPart := ocrPrompt |}.

(** The text block a frame yields, read off the collaborator's answer: the
    answer's text when the frame's image is a data URL, the collaborator
    fulfils the request of iteration [i] and the text is not empty. *)
Definition answered (ai : Client) (i : nat) (frame : Frame) : list string :=
  match dataUrlToPart (imageDataUrl frame) with
  | Normal part =>
      match generateContent ai i (requestFor part) with
      | Normal (Some t) => if truthy t then [t] else []
      | Normal None => []
      | Throw _ => []
      end
  | Throw _ => []
  end.

(** The text blocks of the frames handled by iterations [i], [i + 1], ...,
    in the order of the frames. *)
Fixpoint collected (ai : Client) (i : nat) (frames : list Frame) : list string :=
  match frames with
  | [] => []
  | frame :: rest => (answered ai i frame ++ collected ai (S i) rest)%list
  end.

Definition jpeg (k : Z) : Frame :=
  {| id := k; imageDataUrl := "data:image/jpeg;base64,AAAA" |}.

(** A collaborator that fails on the second request of a run. *)
Definition failsOnSecond : Client :=
  {| generateContent := fun i _ =>
       match i with
       | 0 => Normal (Some "Hello World")
       | 1 => Throw "503 Service Unavailable"
       | _ => Normal (Some "hello 123")
       end |}.

End OcrSpec.

(** ** Vocabulary for the statements about words and the exclusion list *)

Module WordSpec.

Import JS App.

Definition lowercase (w : string) : Prop := toLowerCase w = w.
Definition trimmed (w : string) : Prop := trim w = w.

(** A member as the exclusion list wants it. *)
Definition tidy (w : string) : Prop :=
  lowercase w /\ trimmed w /\ w <> EmptyString.

Definition tidyb (w : string) : bool :=
  String.eqb (toLowerCase w) w && String.eqb (trim w) w && truthy w.

(** Ascending in the order of [sort]. *)
Definition ascending (a : list string) : Prop :=
  Sorted (fun x y => String.leb x y = true) a.

Fixpoint ascendingb (a : list string) : bool :=
  match a with
  | x :: (y :: _) as r => String.leb x y && ascendingb r
  | _ => true
  end.

Fixpoint nodupb (a : list string) : bool :=
  match a with
  | [] => true
  | x :: r => negb (includes r x) && nodupb r
  end.

(** The part of the invariant about the members and their uniqueness. *)
Definition clean (a : list string) : Prop := Forall tidy a /\ NoDup a.

Definition cleanb (a : list string) : bool := forallb tidyb a && nodupb a.

(** The invariant of the excluded-words list as the specification has it. *)
Definition invariant (a : list string) : Prop := clean a /\ ascending a.

(** [s] does not start with white space. *)
Definition headed (s : string) : bool :=
  match s with EmptyString => true | String c _ => negb (isWhite c) end.

(** A match of [\w+]. *)
Definition token (w : string) : Prop :=
  w <> EmptyString /\ allChars isWordChar w = true.

(** What the user can do to the two word lists.  [Processed blocks excluded]
    is the end of a processing run: the OCR returned [blocks] and the run had
    captured the list [excluded]. *)
Inductive Action : Type :=
| TypeWord (text : string)
| AddExcludedWord
| RemoveExcludedWord (word : string)
| WordDoubleClick (word : string)
| Processed (blocks excluded : list string)
| Cleared.

(** The page offers the removal of a listed word and the double click on a
    displayed word only. *)
Definition offered (s : State) (a : Action) : Prop :=
  match a with
  | RemoveExcludedWord w => In w (excludedWords s)
  | WordDoubleClick w => In w (uniqueWords s)
  | _ => True
  end.

Definition perform (a : Action) (s : State) : State :=
  match a with
  | TypeWord text => setNewExcludedWord text s
  | AddExcludedWord => handleAddExcludedWord s
  | RemoveExcludedWord w => handleRemoveExcludedWord w s
  | WordDoubleClick w => handleWordDoubleClick w s
  | Processed blocks excluded => setUniqueWords (getUniqueWords blocks excluded) s
  | Cleared => setUniqueWords [] s
  end.

(** The states reached from [s0]. *)
Inductive reachable (s0 : State) : State -> Prop :=
| reach_start : reachable s0 s0
| reach_step : forall s a, reachable s0 s -> offered s a -> reachable s0 (perform a s).

(** The component's state after mounting. *)
Definition mounted (pf : Platform) : State :=
  {| excludedWords := initExcludedWords pf; uniqueWords := [];
     newExcludedWord := EmptyString |}.

(** Storage without an entry; with an entry that parses to an array of
    strings; with one that parses to a number; with one that does not parse. *)
Definition emptyStorage : Platform :=
  {| getItem := fun _ => Normal None;
     JSON_parse := fun _ => Throw "SyntaxError" |}.

Definition storing (text : string) (parsed : Completion Value) : Platform :=
  {| getItem := fun key =>
       if String.eqb key LOCAL_STORAGE_KEY then Normal (Some text) else Normal None;
     JSON_parse := fun t =>
       if String.eqb t text then parsed else Throw "SyntaxError" |}.

(** The text of a JSON array of two strings, Spam and eggs. *)
Definition quoted (w : string) : string :=
  String (ascii_of_nat 34) (w ++ String (ascii_of_nat 34) EmptyString).

Definition spamArrayText : string := "[" ++ quoted "Spam" ++ "," ++ quoted "eggs" ++ "]".

(** No line feed in [w]. *)
Definition oneLine (w : string) : Prop :=
  allChars (fun c => negb (Ascii.eqb c LF)) w = true.

End WordSpec.

(** ** App: the selection and the processing run *)

Module Page.

Import JS App.

(** An uploaded file, by its name. *)
Definition File : Type := string.

(** The state of the component besides the word lists, which stay in
    [words]. *)
Record Page : Type := {
  videoFile : option File;
  videoUrl : option string;
  duration : Q;
  selection : Q * Q;
  isProcessing : bool;
  statusMessage : string;
  frames : list Frame;
  words : State;
  revokedUrls : list string;   (* arguments of [URL.revokeObjectURL] *)
  caught : list string         (* errors [handleProcessVideo] passes to [console.error] *)
}.

Definition setSelection (sel : Q * Q) (p : Page) : Page :=
  {| videoFile := videoFile p; videoUrl := videoUrl p; duration := duration p;
     selection := sel; isProcessing := isProcessing p;
     statusMessage := statusMessage p; frames := frames p; words := words p;
     revokedUrls := revokedUrls p; caught := caught p |}.

Definition setStatusMessage (message : string) (p : Page) : Page :=
  {| videoFile := videoFile p; videoUrl := videoUrl p; duration := duration p;
     selection := selection p; isProcessing := isProcessing p;
     statusMessage := message; frames := frames p; words := words p;
     revokedUrls := revokedUrls p; caught := caught p |}.

Definition setFrames (fs : list Frame) (p : Page) : Page :=
  {| videoFile := videoFile p; videoUrl := videoUrl p; duration := duration p;
     selection := selection p; isProcessing := isProcessing p;
     statusMessage := statusMessage p; frames := fs; words := words p;
     revokedUrls := revokedUrls p; caught := caught p |}.

Definition setWords (w : State) (p : Page) : Page :=
  {| videoFile := videoFile p; videoUrl := videoUrl p; duration := duration p;
     selection := selection p; isProcessing := isProcessing p;
     statusMessage := statusMessage p; frames := frames p; words := w;
     revokedUrls := revokedUrls p; caught := caught p |}.

Definition setIsProcessing (b : bool) (p : Page) : Page :=
  {| videoFile := videoFile p; videoUrl := videoUrl p; duration := duration p;
     selection := selection p; isProcessing := b;
     statusMessage := statusMessage p; frames := frames p; words := words p;
     revokedUrls := revokedUrls p; caught := caught p |}.

Definition consoleError (e : string) (p : Page) : Page :=
  {| videoFile := videoFile p; videoUrl := videoUrl p; duration := duration p;
     selection := selection p; isProcessing := isProcessing p;
     statusMessage := statusMessage p; frames := frames p; words := words p;
     revokedUrls := revokedUrls p; caught := (caught p ++ [e])%list |}.

(** [handleFileChange(file)]; [createObjectURL] is the browser's. *)
Definition handleFileChange (createObjectURL : File -> string) (file : File)
  (p : Page) : Page :=
  if isProcessing p then p
  else
    {| videoFile := Some file; videoUrl := Some (createObjectURL file);
       duration := duration p; selection := selection p;
       isProcessing := isProcessing p; statusMessage := "";
       frames := []; words := setUniqueWords [] (words p);
       revokedUrls := revokedUrls p; caught := caught p |}.

Definition handleRemoveVideo (p : Page) : Page :=
  if isProcessing p then p
  else
    {| videoFile := None; videoUrl := None;
       duration := 0%Q; selection := (0%Q, 0%Q);
       isProcessing := isProcessing p; statusMessage := "";
       frames := []; words := setUniqueWords [] (words p);
       revokedUrls :=
         match videoUrl p with
         | Some url => (revokedUrls p ++ [url])%list
         | None => revokedUrls p
         end;
       caught := caught p |}.

(** [handleLoadedMetadata()]; [video] is [videoRef.current], by its
    [duration], or [None] when the reference is empty. *)
Definition handleLoadedMetadata (video : option Q) (p : Page) : Page :=
  match video with
  | Some videoDuration =>
      {| videoFile := videoFile p; videoUrl := videoUrl p;
         duration := videoDuration; selection := (0%Q, videoDuration);
         isProcessing := isProcessing p; statusMessage := statusMessage p;
         frames := frames p; words := words p;
         revokedUrls := revokedUrls p; caught := caught p |}
  | None => p
  end.

(** [handleStartChange(e)], with [newStart = Number(e.target.value)];
    [a >= b] is [b <= a]. *)
Definition handleStartChange (newStart : Q) (p : Page) : Page :=
  if Qle_bool (snd (selection p)) newStart
  then setSelection (newStart, newStart) p
  else setSelection (newStart, snd (selection p)) p.

(** [handleEndChange(e)], with [newEnd = Number(e.target.value)]. *)
Definition handleEndChange (newEnd : Q) (p : Page) : Page :=
  if Qle_bool newEnd (fst (selection p))
  then setSelection (newEnd, newEnd) p
  else setSelection (fst (selection p), newEnd) p.

(** The [finally] block. *)
Definition finish (p : Page) : Page := setIsProcessing false p.

(** The [catch] block; [message] is [error.message] of an [Error] and the
    text itself of a rejection with a string. *)
Definition failWith (message : string) (p : Page) : Page :=
  setStatusMessage ("An error occurred: " ++ message) (consoleError message p).

(** [handleProcessVideo()], as far as it gets: [browser] and [fuel] are the
    media element of the sampler's run, [newGoogleGenAI] the outcome of the
    client's construction.  [setStatusMessage] is the [onProgress] of both
    phases, so the status follows their last message.  When the sampler's
    promise stays pending the function stays suspended at its first
    [await]. *)
Definition handleProcessVideo (browser : VideoUtils.Browser) (fuel : nat)
  (newGoogleGenAI : Completion GeminiService.Client) (p0 : Page) : Page :=
  match videoFile p0 with
  | None => p0
  | Some _ =>
      let p := setIsProcessing true p0 in
      let p := setFrames [] p in
      let p := setWords (setUniqueWords [] (words p)) p in
      let p := setStatusMessage "Starting video processing..." p in
      let sampler :=
        VideoUtils.extractFramesFromVideo browser
          (fst (selection p0)) (snd (selection p0)) fuel in
      let p := setStatusMessage
                 (last (VideoUtils.progress sampler) (statusMessage p)) p in
      match VideoUtils.promise sampler with
      | VideoUtils.Pending => p
      | VideoUtils.Rejected reason => finish (failWith reason p)
      | VideoUtils.Resolved extractedFrames =>
          let p := setFrames extractedFrames p in
          if (0 <? List.length extractedFrames)%nat then
            match GeminiService.analyzeFramesForText newGoogleGenAI extractedFrames with
            | Throw e => finish (failWith e p)
            | Normal run =>
                let p := setStatusMessage
                           (last (GeminiService.progress run) (statusMessage p)) p in
                let textBlocks := GeminiService.allWords run in
                let found := getUniqueWords textBlocks (excludedWords (words p0)) in
                let p := setWords (setUniqueWords found (words p)) p in
                finish
                  (setStatusMessage
                     ("Processing complete. Found " ++ showNat (List.length found)
                      ++ " unique words.") p)
            end
          else
            finish (setStatusMessage "No frames were extracted from the selection." p)
      end
  end.

End Page.

(** ** Vocabulary for the statements about the page *)

Module PageSpec.

Import JS App Page.

(** A selection within the video: [0 <= start <= end <= duration]. *)
Definition validSelection (p : Page) : Prop :=
  (0 <= fst (selection p))%Q /\
  (fst (selection p) <= snd (selection p))%Q /\
  (snd (selection p) <= duration p)%Q.

(** What the user and the video element do to the selection.  A video
    reports a duration that is not negative, and a range input keeps its
    value between its [min], 0, and its [max], the duration. *)
Inductive Action : Type :=
| FileChange (createObjectURL : File -> string) (file : File)
| RemoveVideo
| LoadedMetadata (videoDuration : Q)
| StartChange (newStart : Q)
| EndChange (newEnd : Q).

Definition offered (p : Page) (a : Action) : Prop :=
  match a with
  | LoadedMetadata d => (0 <= d)%Q
  | StartChange v => (0 <= v)%Q /\ (v <= duration p)%Q
  | EndChange v => (0 <= v)%Q /\ (v <= duration p)%Q
  | _ => True
  end.

Definition perform (a : Action) (p : Page) : Page :=
  match a with
  | FileChange createObjectURL file => handleFileChange createObjectURL file p
  | RemoveVideo => handleRemoveVideo p
  | LoadedMetadata d => handleLoadedMetadata (Some d) p
  | StartChange v => handleStartChange v p
  | EndChange v => handleEndChange v p
  end.

Inductive reachable (p0 : Page) : Page -> Prop :=
| reach_start : reachable p0 p0
| reach_step : forall p a, reachable p0 p -> offered p a -> reachable p0 (perform a p).

(** The page after mounting. *)
Definition mounted (pf : Platform) : Page :=
  {| videoFile := None; videoUrl := None; duration := 0%Q;
     selection := (0%Q, 0%Q); isProcessing := false; statusMessage := "";
     frames := []; words := WordSpec.mounted pf; revokedUrls := [];
     caught := [] |}.

(** The number of frames the sampler takes on an interval. *)
Definition frameCount (startTime endTime : Q) : nat :=
  Z.to_nat (Z.max 1 (Qfloor endTime - Qfloor startTime + 1)).

(** The progress message of the sampler after its [k]-th frame, [total]
    being the text of the total. *)
Definition extracted (total : string) (k : nat) : string :=
  "Extracted frame " ++ showNat k ++ " of " ++ total.

(** What every listener of the sampler keeps, on a run over
    [startTime .. endTime], whatever the counter does. *)
Record Kept (browser : VideoUtils.Browser) (startTime endTime : Q)
  (s : VideoUtils.Sampler) : Prop := {
  kept_progress :
    VideoUtils.progress s
    = map (extracted (VideoUtils.totalFrames browser startTime endTime))
          (seq 1 (List.length (VideoUtils.frames s)));
  kept_pending : VideoUtils.promise s = VideoUtils.Pending -> VideoUtils.revoked s = 0%nat;
  kept_resolved :
    forall fs, VideoUtils.promise s = VideoUtils.Resolved fs ->
               fs <> [] /\ (1 <= VideoUtils.revoked s)%nat;
  kept_live :
    forall fs, VideoUtils.promise s = VideoUtils.Resolved fs ->
               fs = VideoUtils.frames s
}.

(** What the listeners keep while the counter stays within the safe
    integers: the counter is [floor(startTime)] plus the number of frames,
    and the [id]s are the integers before it. *)
Definition Counted (startTime : Q) (s : VideoUtils.Sampler) : Prop :=
  (Qfloor startTime + Z.of_nat (List.length (VideoUtils.frames s))
   <= SamplerSpec.maxSafe)%Z ->
  map id (VideoUtils.frames s)
  = SamplerSpec.zrange (Qfloor startTime) (List.length (VideoUtils.frames s)) /\
  VideoUtils.currentTime s
  = (Qfloor startTime + Z.of_nat (List.length (VideoUtils.frames s)))%Z.

(** A counter [c] that is not past [floor(endTime)] after any of the next
    [n] increments: it counts by one below 2^53; from 2^53 on it stays where
    it is, or makes one step to the next double and stays there. *)
Definition onTrack (endTime : Q) (c : Z) (n : nat) : Prop :=
  n = 0%nat \/
  ((- SamplerSpec.maxSafe - 1 <= c)%Z /\ (c < SamplerSpec.maxSafe)%Z /\
   (c + Z.of_nat n <= Qfloor endTime)%Z) \/
  ((SamplerSpec.maxSafe <= c)%Z /\ increment c = c /\ (c <= Qfloor endTime)%Z) \/
  ((SamplerSpec.maxSafe <= c)%Z /\ isDouble c /\ (c < Qfloor endTime)%Z /\
   isDouble (Qfloor endTime)).

(** Times within the safe integers: not negative and below 2^53. *)
Definition safeTimes (startTime endTime : Q) : Prop :=
  (0 <= startTime)%Q /\ (startTime < inject_Z SamplerSpec.maxSafe)%Q /\
  (endTime < inject_Z SamplerSpec.maxSafe)%Q.

(** No comma, and no comma or line terminator, in a text. *)
Definition noComma (s : string) : Prop :=
  allChars (fun c => negb (Ascii.eqb c ",")) s = true.

Definition plainMime (s : string) : Prop :=
  allChars (fun c => negb (Ascii.eqb c ",") && negb (isLineTerminator c)) s = true.

(** The frames whose request fails, with the error, from iteration [i] on. *)
Fixpoint failures (ai : GeminiService.Client) (i : nat) (frames : list Frame)
  : list (Z * string) :=
  match frames with
  | [] => []
  | frame :: rest =>
      match GeminiService.requestText ai i frame with
      | Throw e => (id frame, e) :: failures ai (S i) rest
      | Normal _ => failures ai (S i) rest
      end
  end.

(** The target of the CSV link for a list of words: the header with its
    space encoded, then each word after an encoded line feed. *)
Definition csvHref (ws : list string) : string :=
  "data:text/csv;charset=utf-8,Extracted%20Words"
  ++ String.concat "" (map (fun w => "%0A" ++ w) ws).

(** The word the add handler stores for a typed text. *)
Definition typed (s : State) : string := toLowerCase (trim (newExcludedWord s)).

(** A page with a video of ten and a half seconds loaded. *)
Definition loaded : Page :=
  perform (LoadedMetadata (21 # 2))
    (perform (FileChange (fun name => "blob:" ++ name) "clip.mp4")
       (mounted WordSpec.emptyStorage)).

End PageSpec.

(** * Properties of the frame sampler *)

Module SamplerFacts.

Import VideoUtils SamplerSpec.

Lemma zrange_length c n : List.length (zrange c n) = n.
Proof. revert c; induction n; intro c; simpl; [reflexivity | now rewrite IHn]. Qed.

Lemma zrange_increasing c n : Sorted Z.lt (zrange c n).
Proof.
  revert c; induction n as [|n IH]; intro c; simpl; constructor.
  - apply IH.
  - destruct n; simpl; constructor; lia.
Qed.

(** The loop test [currentTime <= endTime], on an integer counter. *)
Lemma counter_le_end (k : Z) (e : Q) :
  Qle_bool (inject_Z k) e = true <-> (k <= Qfloor e)%Z.
Proof.
  rewrite Qle_bool_iff. split; intro H.
  - apply Qfloor_resp_le in H. now rewrite Qfloor_Z in H.
  - apply Qle_trans with (inject_Z (Qfloor e)).
    + now rewrite <- Zle_Qle.
    + apply Qfloor_le.
Qed.

Lemma counter_gt_end (k : Z) (e : Q) :
  Qle_bool (inject_Z k) e = false <-> (Qfloor e < k)%Z.
Proof.
  rewrite <- Bool.not_true_iff_false, counter_le_end. lia.
Qed.

(** Adding one is exact while the result is at most 2^53 in size. *)
Lemma increment_exact (x : Z) :
  (- maxSafe <= x + 1 <= maxSafe)%Z -> JS.increment x = (x + 1)%Z.
Proof.
  unfold maxSafe, JS.increment, JS.nearestDouble. intro H.
  assert (E : (Z.abs (x + 1) <=? 2 ^ 53)%Z = true) by (apply Z.leb_le; lia).
  now rewrite E.
Qed.

Lemma floor_below (e : Q) (k : Z) : (e < inject_Z k)%Q -> (Qfloor e < k)%Z.
Proof.
  intro H. rewrite Zlt_Qlt.
  apply Qle_lt_trans with e; [apply Qfloor_le | exact H].
Qed.

Lemma floor_nonneg (e : Q) : (0 <= e)%Q -> (0 <= Qfloor e)%Z.
Proof. intro H. apply Qfloor_resp_le in H. exact H. Qed.

Section Run.

Variable browser : Browser.
Variables startTime endTime : Q.
Hypothesis has_context : context browser = true.
Hypothesis end_safe : (Qfloor endTime < maxSafe)%Z.

Local Abbreviation answer := (answerSeeks browser startTime endTime).

(** One [seeked] event on a pending run whose counter is safe. *)
Lemma seeked_step (s : Sampler) :
  seeking s = Some (currentTime s) ->
  promise s = Pending ->
  (- maxSafe <= currentTime s + 1 <= maxSafe)%Z ->
  let frames' := (frames s ++ [frameAt browser (canvas s) (currentTime s)])%list in
  let s' := dispatch browser startTime endTime s seeked in
  frames s' = frames' /\
  currentTime s' = (currentTime s + 1)%Z /\
  canvas s' = canvas s /\
  (if Qle_bool (inject_Z (currentTime s + 1)) endTime
   then seeking s' = Some (currentTime s + 1)%Z /\ promise s' = Pending /\
        revoked s' = revoked s
   else seeking s' = None /\ promise s' = Resolved frames' /\
        revoked s' = S (revoked s)).
Proof.
  intros Hseek Hpend Hc. cbn zeta.
  unfold dispatch, arrive, captureFrame. rewrite Hseek, has_context.
  cbn [negb frames currentTime canvas position seeking promise revoked progress].
  rewrite (increment_exact (currentTime s)) by exact Hc.
  rewrite Hpend. cbn [held settle].
  destruct (Qle_bool (inject_Z (currentTime s + 1)) endTime);
    cbn [frames currentTime canvas seeking promise revoked]; repeat split.
Qed.

(** From a pending run about to capture second [currentTime s], with [n]
    further whole seconds up to [endTime], [n + 1] events are enough. *)
Lemma answerSeeks_completes (n : nat) :
  forall (s : Sampler) (fuel : nat),
    seeking s = Some (currentTime s) ->
    promise s = Pending ->
    (- maxSafe <= currentTime s)%Z ->
    (currentTime s + Z.of_nat n = Qfloor endTime)%Z ->
    (n < fuel)%nat ->
    let fs := (frames s ++ map (frameAt browser (canvas s))
                               (zrange (currentTime s) (S n)))%list in
    promise (answer fuel s) = Resolved fs /\
    frames (answer fuel s) = fs /\
    revoked (answer fuel s) = S (revoked s).
Proof.
  induction n as [|n IH]; intros s fuel Hseek Hpend Hlo Hend Hfuel;
    (destruct fuel as [|fuel]; [lia|]); cbn zeta; cbn [answerSeeks];
    rewrite Hseek;
    destruct (seeked_step s Hseek Hpend) as (Hf & Hc & Hcv & Hrest); try lia.
  - assert (Hout : Qle_bool (inject_Z (currentTime s + 1)) endTime = false)
      by (apply counter_gt_end; lia).
    rewrite Hout in Hrest. destruct Hrest as (Hs & Hp & Hr).
    assert (E : answer fuel (dispatch browser startTime endTime s seeked)
                = dispatch browser startTime endTime s seeked)
      by (destruct fuel; cbn [answerSeeks]; [reflexivity | now rewrite Hs]).
    rewrite E, Hp, Hf, Hr. cbn [zrange map]. auto.
  - assert (Hin : Qle_bool (inject_Z (currentTime s + 1)) endTime = true)
      by (apply counter_le_end; lia).
    rewrite Hin in Hrest. destruct Hrest as (Hs & Hp & Hr).
    destruct (IH (dispatch browser startTime endTime s seeked) fuel)
      as (IHp & IHf & IHr);
      [now rewrite Hs, Hc | exact Hp | rewrite Hc; lia | rewrite Hc; lia | lia |].
    rewrite IHp, IHf, IHr, Hf, Hc, Hcv, Hr.
    change (zrange (currentTime s) (S (S n)))
      with (currentTime s :: zrange (currentTime s + 1) (S n)).
    rewrite map_cons, <- app_assoc. auto.
Qed.

(** The whole run: [n + 1] frames when [floor(endTime) = floor(startTime) + n]. *)
Lemma extract_completes (n fuel : nat) :
  (- maxSafe <= Qfloor startTime)%Z ->
  (Qfloor startTime + Z.of_nat n = Qfloor endTime)%Z ->
  (n < fuel)%nat ->
  let s := extractFramesFromVideo browser startTime endTime fuel in
  promise s =
    Resolved (map (frameAt browser (videoWidth browser, videoHeight browser))
                  (zrange (Qfloor startTime) (S n))) /\
  revoked s = 1%nat.
Proof.
  intros Hlo Hn Hfuel s.
  destruct (answerSeeks_completes n
              (dispatch browser startTime endTime (created startTime) loadedmetadata)
              fuel) as (Hp & _ & Hr); try reflexivity; try assumption.
  subst s. unfold extractFramesFromVideo. now rewrite Hp, Hr.
Qed.

End Run.

(** The two paths that release the object URL: the [error] listener calls
    [URL.revokeObjectURL] before it rejects, and the last capture calls it
    before it resolves ([extract_completes]). *)
Lemma error_releases_once browser startTime endTime (s : Sampler) message :
  promise s = Pending ->
  revoked s = 0%nat ->
  let s' := dispatch browser startTime endTime s (error message) in
  (exists reason, promise s' = Rejected reason) /\ revoked s' = 1%nat.
Proof.
  intros Hp Hr. simpl. rewrite Hp, Hr. split; [eexists; reflexivity | reflexivity].
Qed.

(** A media error before the metadata is known: one release, then the
    rejection. *)
Lemma error_before_metadata browser startTime endTime message :
  let s := after browser startTime endTime [error message] in
  (exists reason, promise s = Rejected reason) /\ revoked s = 1%nat.
Proof. now apply error_releases_once. Qed.

End SamplerFacts.

(** * Properties of the OCR loop *)

Module OcrFacts.

Import JS GeminiService OcrSpec.

(** An iteration pushes what its response contributes, and nothing else. *)
Lemma iteration_allWords ai n i frame r :
  allWords (iteration ai n i frame r)
  = (allWords r ++ kept (requestText ai i frame))%list.
Proof.
  unfold iteration, tryBlock, kept.
  destruct (requestText ai i frame) as [[t|]|e]; simpl;
    [destruct (truthy t); simpl | |]; now rewrite ?app_nil_r.
Qed.

Lemma loop_allWords ai n frames :
  forall i r,
    allWords (loop ai n i frames r) = (allWords r ++ textBlocks ai i frames)%list.
Proof.
  induction frames as [|frame rest IH]; intros i r; simpl.
  - unfold textBlocks; simpl. now rewrite app_nil_r.
  - rewrite IH, iteration_allWords, <- app_assoc. reflexivity.
Qed.

Lemma responses_app ai pre post :
  forall i,
    responses ai i (pre ++ post)
    = (responses ai i pre ++ responses ai (List.length pre + i) post)%list.
Proof.
  induction pre as [|f pre IH]; intro i; simpl; [reflexivity|].
  rewrite IH. do 3 f_equal. lia.
Qed.

Lemma textBlocks_app ai i pre post :
  textBlocks ai i (pre ++ post)
  = (textBlocks ai i pre ++ textBlocks ai (List.length pre + i) post)%list.
Proof. unfold textBlocks. now rewrite responses_app, flat_map_app. Qed.

Lemma responses_nth ai frames :
  forall i k,
    nth_error (responses ai i frames) k
    = option_map (requestText ai (k + i)) (nth_error frames k).
Proof.
  induction frames as [|f rest IH]; intros i [|k]; simpl; try reflexivity.
  rewrite IH. do 2 f_equal. lia.
Qed.

Lemma analyze_returns ai frames :
  returned (analyzeFramesForText (Normal ai) frames) = Normal (textBlocks ai 0 frames).
Proof.
  unfold analyzeFramesForText, returned; simpl. now rewrite loop_allWords.
Qed.

Lemma kept_in response t :
  In t (kept response) <-> response = Normal (Some t) /\ t <> EmptyString.
Proof.
  destruct response as [[u|]|e]; simpl.
  - destruct u as [|c u]; simpl.
    + split; [tauto | intros [H Hne]; injection H as <-; congruence].
    + split.
      * intros [<- | []]. split; [reflexivity | discriminate].
      * intros [H _]. injection H as <-. now left.
  - split; [tauto | intros [H _]; discriminate].
  - split; [tauto | intros [H _]; discriminate].
Qed.

(** What an iteration pushes, read off the collaborator's answer. *)
Lemma kept_requestText ai i frame :
  kept (requestText ai i frame) = answered ai i frame.
Proof.
  unfold requestText, answered, requestFor.
  destruct (dataUrlToPart (imageDataUrl frame)) as [part|e]; reflexivity.
Qed.

Lemma textBlocks_collected ai frames :
  forall i, textBlocks ai i frames = collected ai i frames.
Proof.
  unfold textBlocks. induction frames as [|frame rest IH]; intro i; simpl.
  - reflexivity.
  - now rewrite kept_requestText, IH.
Qed.

Lemma collected_In ai frames t :
  forall i,
    In t (collected ai i frames) <->
    exists (k : nat) (frame : Frame),
      nth_error frames k = Some frame /\ In t (answered ai (k + i) frame).
Proof.
  induction frames as [|frame rest IH]; intro i; simpl.
  - split; [tauto|]. intros (k & f & H & _). now destruct k.
  - rewrite in_app_iff, IH. split.
    + intros [H | (k & f & Hk & Hin)].
      * exists 0%nat, frame. now split.
      * exists (S k), f. split; [exact Hk|].
        now replace (S k + i)%nat with (k + S i)%nat by lia.
    + intros ([|k] & f & Hk & Hin).
      * left. simpl in Hk. injection Hk as <-. exact Hin.
      * right. exists k, f. split; [exact Hk|].
        now replace (k + S i)%nat with (S k + i)%nat by lia.
Qed.

Lemma answered_In ai i frame t :
  In t (answered ai i frame) <->
  exists part : Part,
    dataUrlToPart (imageDataUrl frame) = Normal part /\
    generateContent ai i (requestFor part) = Normal (Some t) /\
    t <> EmptyString.
Proof.
  unfold answered.
  destruct (dataUrlToPart (imageDataUrl frame)) as [part|e].
  - destruct (generateContent ai i (requestFor part)) as [[u|]|e] eqn:E.
    + destruct u as [|c u]; simpl.
      * split; [tauto|]. intros (p & Hp & Hg & Hne).
        injection Hp as <-. rewrite E in Hg. injection Hg as <-. congruence.
      * split.
        -- intros [<- | []]. exists part. repeat split; [exact E | discriminate].
        -- intros (p & Hp & Hg & _). injection Hp as <-. rewrite E in Hg.
           injection Hg as <-. now left.
    + split; [simpl; tauto|]. intros (p & Hp & Hg & _).
      injection Hp as <-. rewrite E in Hg. discriminate.
    + split; [simpl; tauto|]. intros (p & Hp & Hg & _).
      injection Hp as <-. rewrite E in Hg. discriminate.
  - split; [simpl; tauto|]. intros (p & Hp & _). discriminate.
Qed.

End OcrFacts.

(** * Properties of the text normalisation *)

Module WordFacts.

Import JS App WordSpec.

(** Facts about one code unit, by enumeration. *)
Ltac by_cases_on c :=
  destruct c as [[] [] [] [] [] [] [] []]; vm_compute; solve [auto | discriminate | tauto].

Lemma lowerChar_idem c : lowerChar (lowerChar c) = lowerChar c.
Proof. by_cases_on c. Qed.

Lemma isWhite_lowerChar c : isWhite (lowerChar c) = isWhite c.
Proof. by_cases_on c. Qed.

Lemma isWordChar_lowerChar c : isWordChar (lowerChar c) = isWordChar c.
Proof. by_cases_on c. Qed.

Lemma isWordChar_not_white c : isWordChar c = true -> isWhite c = false.
Proof. by_cases_on c. Qed.

Lemma toLowerCase_idem s : toLowerCase (toLowerCase s) = toLowerCase s.
Proof. induction s; simpl; [reflexivity | now rewrite lowerChar_idem, IHs]. Qed.

Lemma truthy_toLowerCase s : truthy (toLowerCase s) = truthy s.
Proof. now destruct s. Qed.

Lemma truthy_nonempty s : truthy s = true <-> s <> EmptyString.
Proof. destruct s; simpl; split; congruence. Qed.

Lemma allChars_word_toLowerCase s :
  allChars isWordChar (toLowerCase s) = allChars isWordChar s.
Proof. induction s; simpl; [reflexivity | now rewrite isWordChar_lowerChar, IHs]. Qed.

(** [trim] *)

Lemma dropWhite_toLowerCase s : dropWhite (toLowerCase s) = toLowerCase (dropWhite s).
Proof.
  induction s as [|c s IH]; simpl; [reflexivity|].
  rewrite isWhite_lowerChar. now destruct (isWhite c).
Qed.

Lemma dropWhiteEnd_toLowerCase s :
  dropWhiteEnd (toLowerCase s) = toLowerCase (dropWhiteEnd s).
Proof.
  induction s as [|c s IH]; simpl; [reflexivity|].
  rewrite IH, isWhite_lowerChar.
  destruct (dropWhiteEnd s); simpl; [now destruct (isWhite c) | reflexivity].
Qed.

Lemma trim_toLowerCase s : trim (toLowerCase s) = toLowerCase (trim s).
Proof. unfold trim. now rewrite dropWhite_toLowerCase, dropWhiteEnd_toLowerCase. Qed.

Lemma headed_dropWhite s : headed (dropWhite s) = true.
Proof.
  induction s as [|c s IH]; simpl; [reflexivity|].
  destruct (isWhite c) eqn:E; [exact IH | simpl; now rewrite E].
Qed.

Lemma dropWhite_headed s : headed s = true -> dropWhite s = s.
Proof. destruct s as [|c s]; simpl; [reflexivity|]. now destruct (isWhite c). Qed.

Lemma headed_dropWhiteEnd s : headed s = true -> headed (dropWhiteEnd s) = true.
Proof.
  destruct s as [|c s]; simpl; [reflexivity|]. intro H.
  apply negb_true_iff in H.
  destruct (dropWhiteEnd s); rewrite ?H; simpl; now rewrite H.
Qed.

Lemma dropWhiteEnd_idem s : dropWhiteEnd (dropWhiteEnd s) = dropWhiteEnd s.
Proof.
  induction s as [|c s IH]; simpl; [reflexivity|].
  destruct (dropWhiteEnd s) as [|d r] eqn:E.
  - destruct (isWhite c) eqn:W; simpl; [reflexivity | now rewrite W].
  - change (dropWhiteEnd (String c (String d r))) with
      (match dropWhiteEnd (String d r) with
       | EmptyString => if isWhite c then EmptyString else String c EmptyString
       | r' => String c r'
       end).
    now rewrite IH.
Qed.

Lemma trim_idem s : trim (trim s) = trim s.
Proof.
  unfold trim.
  rewrite (dropWhite_headed (dropWhiteEnd (dropWhite s))).
  - apply dropWhiteEnd_idem.
  - apply headed_dropWhiteEnd, headed_dropWhite.
Qed.

Lemma dropWhiteEnd_no_white s :
  allChars (fun c => negb (isWhite c)) s = true -> dropWhiteEnd s = s.
Proof.
  induction s as [|c s IH]; simpl; [reflexivity|].
  intro H. apply andb_prop in H. destruct H as [Hc Hs].
  rewrite (IH Hs). destruct s; [|reflexivity].
  now destruct (isWhite c).
Qed.

Lemma allChars_impl (p q : ascii -> bool) s :
  (forall c, p c = true -> q c = true) ->
  allChars p s = true -> allChars q s = true.
Proof.
  intro Hpq. induction s as [|c s IH]; simpl; [reflexivity|].
  intro H. apply andb_prop in H. destruct H as [Hc Hs].
  now rewrite (Hpq c Hc), (IH Hs).
Qed.

Lemma trimmed_no_white s :
  allChars (fun c => negb (isWhite c)) s = true -> trimmed s.
Proof.
  intro H. unfold trimmed, trim.
  rewrite dropWhite_headed.
  - now apply dropWhiteEnd_no_white.
  - destruct s; simpl in *; [reflexivity|]. now apply andb_prop in H.
Qed.

(** The lower-cased form of a token is tidy. *)
Lemma tidy_token w : token w -> tidy (toLowerCase w).
Proof.
  intros [Hne Hw]. repeat split.
  - apply toLowerCase_idem.
  - apply trimmed_no_white.
    apply allChars_impl with isWordChar.
    + intros c Hc. now rewrite (isWordChar_not_white c Hc).
    + now rewrite allChars_word_toLowerCase.
  - now destruct w.
Qed.

(** What the add handler stores is tidy. *)
Lemma tidy_typed text :
  truthy (toLowerCase (trim text)) = true -> tidy (toLowerCase (trim text)).
Proof.
  intro H. repeat split.
  - apply toLowerCase_idem.
  - unfold trimmed. now rewrite trim_toLowerCase, trim_idem.
  - now apply truthy_nonempty.
Qed.

Lemma tidyb_sound w : tidyb w = true -> tidy w.
Proof.
  unfold tidyb. intro H.
  apply andb_prop in H. destruct H as [H Ht].
  apply andb_prop in H. destruct H as [Hl Hr].
  repeat split; [now apply String.eqb_eq | now apply String.eqb_eq |].
  now apply truthy_nonempty.
Qed.

(** The matches of the word pattern *)

Lemma allChars_app p s t :
  allChars p (s ++ t) = allChars p s && allChars p t.
Proof. induction s; simpl; [reflexivity | now rewrite IHs, andb_assoc]. Qed.

Lemma flush_tokens acc :
  allChars isWordChar acc = true -> Forall token (flush acc).
Proof.
  destruct acc; simpl; intro H; constructor; [|constructor].
  split; [discriminate | exact H].
Qed.

Lemma wordRuns_tokens s :
  forall acc, allChars isWordChar acc = true -> Forall token (wordRuns acc s).
Proof.
  induction s as [|c s IH]; intros acc Hacc; simpl.
  - now apply flush_tokens.
  - destruct (isWordChar c) eqn:E.
    + apply IH. rewrite allChars_app, Hacc. simpl. now rewrite E.
    + apply Forall_app. split; [now apply flush_tokens | now apply IH].
Qed.

Lemma matchWords_tokens s : Forall token (matchWords s).
Proof. now apply wordRuns_tokens. Qed.

(** Arrays: [includes], [Set], [sort] *)

Lemma includes_In a x : includes a x = true <-> In x a.
Proof.
  unfold includes. rewrite existsb_exists. split.
  - intros (y & Hy & E). apply String.eqb_eq in E. now subst.
  - intro H. exists x. split; [exact H | apply String.eqb_refl].
Qed.

Lemma includes_not_In a x : includes a x = false <-> ~ In x a.
Proof. rewrite <- includes_In. now destruct (includes a x). Qed.

Lemma uniq_In seen a x :
  In x (uniq seen a) <-> In x a /\ ~ In x seen.
Proof.
  revert seen. induction a as [|y a IH]; intro seen; simpl; [tauto|].
  destruct (includes seen y) eqn:E.
  - apply includes_In in E. rewrite IH. split.
    + tauto.
    + intros [[<- | H] Hn]; tauto.
  - apply includes_not_In in E. simpl. rewrite IH. simpl. split.
    + intros [<- | [H Hn]]; tauto.
    + intros [[<- | H] Hn]; [now left|].
      destruct (String.eqb_spec y x) as [->|Hne]; [now left | right; tauto].
Qed.

Lemma uniq_NoDup seen a : NoDup (uniq seen a).
Proof.
  revert seen. induction a as [|y a IH]; intro seen; simpl; [constructor|].
  destruct (includes seen y); [apply IH|].
  constructor; [|apply IH].
  rewrite uniq_In. simpl. tauto.
Qed.

Lemma insert_Permutation x a : Permutation (x :: a) (insert x a).
Proof.
  induction a as [|y a IH]; simpl; [reflexivity|].
  destruct (String.leb x y); [reflexivity|].
  rewrite perm_swap. now apply perm_skip.
Qed.

Lemma sort_Permutation a : Permutation a (sort a).
Proof.
  induction a as [|x a IH]; simpl; [constructor|].
  rewrite <- insert_Permutation. now apply perm_skip.
Qed.

Lemma insert_ascending x a : ascending a -> ascending (insert x a).
Proof.
  unfold ascending. induction a as [|y a IH]; simpl; intro H.
  - repeat constructor.
  - destruct (String.leb x y) eqn:E.
    + constructor; [exact H | now constructor].
    + apply Sorted_inv in H. destruct H as [Hs Hh].
      constructor; [now apply IH|].
      assert (Hyx : String.leb y x = true)
        by (destruct (String.leb_total x y); congruence).
      destruct a as [|z a]; simpl; [now constructor|].
      destruct (String.leb x z); constructor; [exact Hyx|].
      now apply HdRel_inv in Hh.
Qed.

Lemma sort_ascending a : ascending (sort a).
Proof.
  induction a; simpl; [constructor | now apply insert_ascending].
Qed.

Lemma ascendingb_complete a : ascending a -> ascendingb a = true.
Proof.
  unfold ascending. induction a as [|x a IH]; [reflexivity|].
  intro H. apply Sorted_inv in H. destruct H as [Hs Hh].
  destruct a as [|y a]; [reflexivity|].
  apply HdRel_inv in Hh.
  change (String.leb x y && ascendingb (y :: a) = true).
  now rewrite Hh, IH.
Qed.

(** The order of [sort] is transitive. *)
Lemma compare_trans_le a :
  forall b c,
    String.compare a b <> Gt -> String.compare b c <> Gt -> String.compare a c <> Gt.
Proof.
  induction a as [|x a IH]; intros [|y b] [|z c]; simpl; try congruence.
  unfold Ascii.compare.
  destruct (N.compare_spec (N_of_ascii x) (N_of_ascii y)) as [Exy|Lxy|Gxy];
    destruct (N.compare_spec (N_of_ascii y) (N_of_ascii z)) as [Eyz|Lyz|Gyz];
    destruct (N.compare_spec (N_of_ascii x) (N_of_ascii z)) as [Exz|Lxz|Gxz];
    try congruence; try lia; try (intros; exfalso; lia).
  apply IH.
Qed.

Lemma leb_trans a b c :
  String.leb a b = true -> String.leb b c = true -> String.leb a c = true.
Proof.
  unfold String.leb. intros Hab Hbc.
  pose proof (compare_trans_le a b c) as H.
  destruct (String.compare a b), (String.compare b c), (String.compare a c);
    try reflexivity; try discriminate; exfalso; apply H; congruence.
Qed.

Lemma filter_ascending (f : string -> bool) a : ascending a -> ascending (filter f a).
Proof.
  unfold ascending. intro H.
  apply Sorted_StronglySorted in H; [|intros x y z; apply leb_trans].
  apply StronglySorted_Sorted.
  induction H as [|x a Hs IH Hall]; simpl; [constructor|].
  destruct (f x); [|exact IH].
  constructor; [exact IH|].
  rewrite Forall_forall in *. intros y Hy. apply filter_In in Hy. now apply Hall.
Qed.

Lemma nodupb_sound a : nodupb a = true -> NoDup a.
Proof.
  induction a as [|x a IH]; simpl; intro H; constructor;
    apply andb_prop in H; destruct H as [Hx Ha].
  - apply includes_not_In. now apply negb_true_iff.
  - now apply IH.
Qed.

Lemma cleanb_sound a : cleanb a = true -> clean a.
Proof.
  unfold cleanb, clean. intro H. apply andb_prop in H. destruct H as [Ht Hn].
  split; [|now apply nodupb_sound].
  rewrite forallb_forall in Ht. apply Forall_forall.
  intros w Hw. now apply tidyb_sound, Ht.
Qed.

(** Inserting a tidy word that is not listed. *)
Lemma clean_insert a w :
  clean a -> tidy w -> ~ In w a -> clean (sort (a ++ [w])).
Proof.
  intros [Ht Hn] Hw Hnew.
  assert (P : Permutation (w :: a) (sort (a ++ [w]))).
  { rewrite <- sort_Permutation. apply Permutation_cons_append. }
  split.
  - eapply Permutation_Forall; [exact P | now constructor].
  - eapply Permutation_NoDup; [exact P | now constructor].
Qed.

Lemma clean_filter (f : string -> bool) a : clean a -> clean (filter f a).
Proof.
  intros [Ht Hn]. split; [|now apply NoDup_filter].
  rewrite Forall_forall in *. intros w Hw. apply filter_In in Hw. now apply Ht.
Qed.

(** [getUniqueWords]: which words it returns. *)
Lemma getUniqueWords_In blocks excluded w :
  In w (getUniqueWords blocks excluded) <->
  In w (map toLowerCase (matchWords (join " " blocks))) /\
  isNumeric w = false /\
  ~ In w (map toLowerCase excluded).
Proof.
  unfold getUniqueWords.
  split.
  - intro H. apply (Permutation_in _ (Permutation_sym (sort_Permutation _))) in H.
    apply uniq_In in H. destruct H as [H _]. apply filter_In in H.
    destruct H as [Hin Hf]. apply andb_prop in Hf. destruct Hf as [Hnum Hex].
    apply negb_true_iff in Hnum, Hex. apply includes_not_In in Hex. tauto.
  - intros (Hin & Hnum & Hex).
    apply (Permutation_in _ (sort_Permutation _)).
    apply uniq_In. split; [|tauto].
    apply filter_In. split; [exact Hin|].
    apply includes_not_In in Hex. now rewrite Hnum, Hex.
Qed.

Lemma getUniqueWords_NoDup blocks excluded : NoDup (getUniqueWords blocks excluded).
Proof.
  unfold getUniqueWords.
  eapply Permutation_NoDup; [apply sort_Permutation | apply uniq_NoDup].
Qed.

Lemma getUniqueWords_tidy blocks excluded :
  Forall tidy (getUniqueWords blocks excluded).
Proof.
  apply Forall_forall. intros w Hw.
  apply getUniqueWords_In in Hw. destruct Hw as (Hin & _).
  apply in_map_iff in Hin. destruct Hin as (t & <- & Ht).
  apply tidy_token.
  pose proof (matchWords_tokens (join " " blocks)) as Hall.
  rewrite Forall_forall in Hall. now apply Hall.
Qed.

End WordFacts.

(** * Properties of the exclusion list and of the CSV export *)

Module ListFacts.

Import JS App WordSpec WordFacts.

(** At creation the list is the default list or the stored array. *)
Lemma init_cases (pf : Platform) :
  initExcludedWords pf = INITIAL_EXCLUDED_WORDS \/
  exists (text : string) (items : list Value),
    getItem pf LOCAL_STORAGE_KEY = Normal (Some text) /\
    JSON_parse pf text = Normal (VArray items) /\
    forallb isString items = true /\
    initExcludedWords pf = map stringOf items.
Proof.
  unfold initExcludedWords, readSaved.
  destruct (getItem pf LOCAL_STORAGE_KEY) as [[text|]|e] eqn:Hg; simpl; auto.
  destruct (truthy text); simpl; auto.
  destruct (JSON_parse pf text) as [v|e] eqn:Hp; simpl; auto.
  destruct v; simpl; auto.
  destruct (forallb isString items) eqn:Hall; simpl; auto.
  right. exists text, items. auto.
Qed.

(** One action keeps the members tidy and distinct, and the displayed
    words tidy. *)
Lemma perform_clean s a :
  clean (excludedWords s) -> Forall tidy (uniqueWords s) -> offered s a ->
  clean (excludedWords (perform a s)) /\ Forall tidy (uniqueWords (perform a s)).
Proof.
  intros Hc Hu Ha. destruct a as [text| |w|w|blocks excluded|]; simpl in *.
  - now split.
  - unfold handleAddExcludedWord.
    destruct (truthy (toLowerCase (trim (newExcludedWord s)))) eqn:Ht; simpl;
      [|now split].
    destruct (includes (excludedWords s) (toLowerCase (trim (newExcludedWord s))))
      eqn:Hi; simpl; [now split|].
    split; [|exact Hu].
    apply clean_insert; [exact Hc | now apply tidy_typed | now apply includes_not_In].
  - split; [now apply clean_filter | exact Hu].
  - unfold handleWordDoubleClick.
    assert (Hw : tidy w) by (rewrite Forall_forall in Hu; now apply Hu).
    assert (Hf : forall l, Forall tidy l ->
                           Forall tidy (filter (fun x => negb (String.eqb x w)) l)).
    { intros l Hl. rewrite Forall_forall in *. intros x Hx.
      apply filter_In in Hx. now apply Hl. }
    destruct (includes (excludedWords s) w) eqn:Hi; simpl.
    + split; [exact Hc | now apply Hf].
    + split; [|now apply Hf].
      apply clean_insert; [exact Hc | exact Hw | now apply includes_not_In].
  - split; [exact Hc | apply getUniqueWords_tidy].
  - split; [exact Hc | constructor].
Qed.

Lemma reachable_clean s0 s :
  clean (excludedWords s0) -> Forall tidy (uniqueWords s0) -> reachable s0 s ->
  clean (excludedWords s) /\ Forall tidy (uniqueWords s).
Proof.
  intros Hc Hu Hr. induction Hr as [|s a Hr IH Ha]; [now split|].
  destruct IH as [IHc IHu]. now apply perform_clean.
Qed.

(** A sorted list stays sorted. *)
Lemma perform_ascending s a :
  ascending (excludedWords s) -> ascending (excludedWords (perform a s)).
Proof.
  intro H. destruct a as [text| |w|w|blocks excluded|]; simpl; try exact H.
  - unfold handleAddExcludedWord.
    destruct (truthy _ && negb _); simpl; [apply sort_ascending | exact H].
  - now apply filter_ascending.
  - unfold handleWordDoubleClick.
    destruct (negb _); simpl; [apply sort_ascending | exact H].
Qed.

(** An action that makes the list longer leaves it sorted. *)
Lemma perform_longer_ascending s a :
  (List.length (excludedWords s) < List.length (excludedWords (perform a s)))%nat ->
  ascending (excludedWords (perform a s)).
Proof.
  destruct a as [text| |w|w|blocks excluded|]; simpl; try lia.
  - unfold handleAddExcludedWord.
    destruct (truthy _ && negb _); simpl; [intros _; apply sort_ascending | lia].
  - intro H. pose proof (filter_length_le (fun word => negb (String.eqb word w))
                           (excludedWords s)). lia.
  - unfold handleWordDoubleClick.
    destruct (negb _); simpl; [intros _; apply sort_ascending | lia].
Qed.

(** Lines of the CSV payload *)

Lemma append_empty s : (s ++ EmptyString)%string = s.
Proof. induction s; simpl; [reflexivity | now rewrite IHs]. Qed.

Lemma append_assoc (s t u : string) : ((s ++ t) ++ u = s ++ (t ++ u))%string.
Proof. induction s; simpl; [reflexivity | now rewrite IHs]. Qed.

Lemma splitAux_oneLine w :
  forall acc s,
    oneLine w -> splitAux LF acc (w ++ s) = splitAux LF (acc ++ w) s.
Proof.
  unfold oneLine. induction w as [|c w IH]; intros acc s H; simpl in *.
  - now rewrite append_empty.
  - apply andb_prop in H. destruct H as [Hc Hw].
    apply negb_true_iff in Hc. rewrite Hc, (IH _ _ Hw), append_assoc. reflexivity.
Qed.

Lemma splitAux_LF acc s :
  splitAux LF acc (String LF s) = acc :: splitAux LF EmptyString s.
Proof. reflexivity. Qed.

Lemma splitAux_join ws :
  forall w acc,
    Forall oneLine (w :: ws) ->
    splitAux LF acc (join (String LF EmptyString) (w :: ws)) = (acc ++ w)%string :: ws.
Proof.
  unfold join. induction ws as [|w2 ws IH]; intros w acc H.
  - simpl. rewrite <- (append_empty w) at 1.
    rewrite splitAux_oneLine by (now inversion H). reflexivity.
  - change (String.concat (String LF EmptyString) (w :: w2 :: ws))
      with (w ++ String LF (String.concat (String LF EmptyString) (w2 :: ws)))%string.
    inversion H as [|? ? Hw Hrest]; subst.
    rewrite (splitAux_oneLine w _ _ Hw), splitAux_LF, (IH _ _ Hrest). reflexivity.
Qed.

Lemma csvPayload_lines w ws :
  Forall oneLine (w :: ws) ->
  split LF (csvPayload (w :: ws)) = csvHeader :: w :: ws.
Proof.
  intro H. unfold split, csvPayload.
  rewrite splitAux_oneLine by reflexivity.
  change (String LF EmptyString ++ ?s)%string with (String LF s).
  rewrite splitAux_LF, (splitAux_join _ _ _ H). reflexivity.
Qed.

End ListFacts.

(** ** The claims about the sampler *)

Import VideoUtils SamplerSpec.

(** C1.  On a valid interval with [startTime < endTime], within a duration
    below 2^53 seconds (up to there every whole second is a double and the
    counter advances by one), with a canvas context and a media element that
    fires [loadedmetadata] and one [seeked] per seek, the promise is resolved
    with exactly [floor(endTime) - floor(startTime) + 1] frames, and their
    [id]s are the contiguous, strictly increasing integers from
    [floor(startTime)] on. *)
Theorem sampler_frames_of_interval :
  forall (browser : Browser) (startTime endTime duration : Q) (fuel : nat),
    context browser = true ->
    (0 <= startTime)%Q -> (startTime < endTime)%Q -> (endTime <= duration)%Q ->
    (duration < inject_Z maxSafe)%Q ->
    (Z.to_nat (Qfloor endTime - Qfloor startTime + 1) <= fuel)%nat ->
    exists fs : list Frame,
      promise (extractFramesFromVideo browser startTime endTime fuel) = Resolved fs /\
      Z.of_nat (List.length fs) = (Qfloor endTime - Qfloor startTime + 1)%Z /\
      map id fs = zrange (Qfloor startTime) (List.length fs) /\
      Sorted Z.lt (map id fs).
Proof.
  intros browser startTime endTime duration fuel Hctx H0 Hlt Hd Hsafe Hfuel.
  assert (Hfl : (Qfloor startTime <= Qfloor endTime)%Z)
    by (apply Qfloor_resp_le, Qlt_le_weak, Hlt).
  assert (Hhi : (Qfloor endTime < maxSafe)%Z)
    by (apply SamplerFacts.floor_below, Qle_lt_trans with duration; assumption).
  assert (Hlo : (- maxSafe <= Qfloor startTime)%Z)
    by (apply SamplerFacts.floor_nonneg in H0; unfold maxSafe; lia).
  set (n := Z.to_nat (Qfloor endTime - Qfloor startTime)).
  destruct (SamplerFacts.extract_completes browser startTime endTime Hctx Hhi n fuel)
    as [Hp _]; [exact Hlo | subst n; lia | subst n; lia |].
  eexists; split; [exact Hp|].
  rewrite length_map, SamplerFacts.zrange_length, map_map, map_id.
  repeat split; [subst n; lia | apply SamplerFacts.zrange_increasing].
Qed.

Lemma sampler_frames_of_interval_witness :
  exists fs : list Frame,
    promise (extractFramesFromVideo sampleBrowser (3 # 2) (7 # 2) 3) = Resolved fs /\
    Z.of_nat (List.length fs) = (Qfloor (7 # 2) - Qfloor (3 # 2) + 1)%Z /\
    map id fs = zrange (Qfloor (3 # 2)) (List.length fs) /\
    Sorted Z.lt (map id fs).
Proof.
  apply (sampler_frames_of_interval sampleBrowser (3 # 2) (7 # 2) (10 # 1) 3).
  - reflexivity.
  - unfold Qle; simpl; lia.
  - unfold Qlt; simpl; lia.
  - unfold Qle; simpl; lia.
  - unfold Qlt; simpl; lia.
  - vm_compute; lia.
Defined.

(** C2.  On a valid interval with [startTime == endTime], within a duration
    below 2^53 seconds and under the same assumptions, the promise is
    resolved with exactly one frame, and its [id] is [floor(startTime)]. *)
Theorem sampler_single_frame :
  forall (browser : Browser) (startTime endTime duration : Q) (fuel : nat),
    context browser = true ->
    (0 <= startTime)%Q -> (startTime == endTime)%Q -> (endTime <= duration)%Q ->
    (duration < inject_Z maxSafe)%Q ->
    (1 <= fuel)%nat ->
    exists f : Frame,
      promise (extractFramesFromVideo browser startTime endTime fuel) = Resolved [f] /\
      id f = Qfloor startTime.
Proof.
  intros browser startTime endTime duration fuel Hctx H0 Heq Hd Hsafe Hfuel.
  assert (Hfl : Qfloor startTime = Qfloor endTime).
  { apply Z.le_antisymm; apply Qfloor_resp_le; rewrite Heq; apply Qle_refl. }
  assert (Hhi : (Qfloor endTime < maxSafe)%Z)
    by (apply SamplerFacts.floor_below, Qle_lt_trans with duration; assumption).
  assert (Hlo : (- maxSafe <= Qfloor startTime)%Z)
    by (apply SamplerFacts.floor_nonneg in H0; unfold maxSafe; lia).
  destruct (SamplerFacts.extract_completes browser startTime endTime Hctx Hhi 0 fuel)
    as [Hp _]; [exact Hlo | lia | lia |].
  eexists; split; [exact Hp | reflexivity].
Qed.

Lemma sampler_single_frame_witness :
  exists f : Frame,
    promise (extractFramesFromVideo sampleBrowser (5 # 2) (10 # 4) 1) = Resolved [f] /\
    id f = Qfloor (5 # 2).
Proof.
  apply (sampler_single_frame sampleBrowser (5 # 2) (10 # 4) (4 # 1) 1).
  - reflexivity.
  - unfold Qle; simpl; lia.
  - unfold Qeq; simpl; lia.
  - unfold Qle; simpl; lia.
  - unfold Qlt; simpl; lia.
  - lia.
Defined.

(** C3.  The path the claim names last fails it: when the canvas context is
    missing, the first [seeked] event rejects the promise and
    [URL.revokeObjectURL] has not been called, on any interval. *)
Theorem sampler_without_context_keeps_url :
  forall (browser : Browser) (startTime endTime : Q) (fuel : nat),
    context browser = false ->
    (1 <= fuel)%nat ->
    let s := extractFramesFromVideo browser startTime endTime fuel in
    promise s = Rejected "Canvas context is not available." /\ revoked s = 0%nat.
Proof.
  intros browser startTime endTime fuel Hctx Hfuel.
  destruct fuel as [|fuel]; [lia|].
  cbn zeta. unfold extractFramesFromVideo. simpl.
  unfold captureFrame. rewrite Hctx. simpl.
  destruct fuel; simpl; auto.
Qed.

Lemma sampler_without_context_keeps_url_witness :
  let s := extractFramesFromVideo noContextBrowser (0 # 1) (2 # 1) 3 in
  promise s = Rejected "Canvas context is not available." /\ revoked s = 0%nat.
Proof.
  apply (sampler_without_context_keeps_url noContextBrowser (0 # 1) (2 # 1) 3).
  - reflexivity.
  - lia.
Defined.

(** ** The claims about the OCR loop *)

Import JS GeminiService OcrSpec.

(** C4.  Once the client exists, [analyzeFramesForText] completes normally
    for every frame sequence and every behaviour of the collaborator; and
    when the request made for one frame throws or rejects, the result is the
    text blocks of the frames before it followed by those of the frames
    after it. *)
Theorem ocr_failure_skips_frame :
  forall ai : Client,
    (forall frames : list Frame,
        exists blocks : list string,
          returned (analyzeFramesForText (Normal ai) frames) = Normal blocks) /\
    (forall (pre : list Frame) (frame : Frame) (post : list Frame) (e : string),
        requestText ai (List.length pre) frame = Throw e ->
        returned (analyzeFramesForText (Normal ai) (pre ++ frame :: post))
        = Normal (textBlocks ai 0 pre ++ textBlocks ai (S (List.length pre)) post)%list).
Proof.
  intro ai. split.
  - intro frames. eexists. apply OcrFacts.analyze_returns.
  - intros pre frame post e Hfail.
    rewrite OcrFacts.analyze_returns, OcrFacts.textBlocks_app.
    unfold textBlocks at 2. simpl. rewrite Nat.add_0_r, Hfail. reflexivity.
Qed.

Lemma ocr_failure_skips_frame_witness :
  returned (analyzeFramesForText (Normal failsOnSecond) [jpeg 1; jpeg 2; jpeg 3])
  = Normal ["Hello World"; "hello 123"].
Proof.
  exact (proj2 (ocr_failure_skips_frame failsOnSecond)
           [jpeg 1] (jpeg 2) [jpeg 3] "503 Service Unavailable" eq_refl).
Defined.

(** C8.  The array returned by [analyzeFramesForText] consists of exactly
    the non-empty texts that the collaborator returned, in the order of
    their frames: it is the concatenation, frame by frame, of what the
    collaborator's answer to the frame's request yields; and a text is in it
    if and only if, for some frame whose image is a data URL, the
    collaborator fulfilled the request made for that frame with this text,
    and the text is not empty. *)
Theorem ocr_returns_successful_texts :
  forall (ai : Client) (frames : list Frame),
    returned (analyzeFramesForText (Normal ai) frames)
    = Normal (collected ai 0 frames) /\
    (forall t : string,
        In t (collected ai 0 frames) <->
        exists (i : nat) (frame : Frame) (part : Part),
          nth_error frames i = Some frame /\
          dataUrlToPart (imageDataUrl frame) = Normal part /\
          generateContent ai i
            {| model := "gemini-2.5-pro"; imagePart := part; textPart := ocrPrompt |}
          = Normal (Some t) /\
          t <> EmptyString).
Proof.
  intros ai frames. split.
  - rewrite OcrFacts.analyze_returns. f_equal. apply OcrFacts.textBlocks_collected.
  - intro t. rewrite OcrFacts.collected_In. split.
    + intros (k & frame & Hk & Hin). rewrite Nat.add_0_r in Hin.
      apply OcrFacts.answered_In in Hin. destruct Hin as (part & Hp & Hg & Hne).
      exists k, frame, part. auto.
    + intros (i & frame & part & Hf & Hp & Hg & Hne).
      exists i, frame. split; [exact Hf|]. rewrite Nat.add_0_r.
      apply OcrFacts.answered_In. exists part. auto.
Qed.

(** ** The claims about the text normalisation *)

Import JS App WordSpec.

(** C5.  [getUniqueWords] on the text blocks "Hello World" and "hello 123"
    with nothing excluded returns exactly "hello", "world"; and on every
    input its result is sorted in ascending order, has no duplicates, and
    consists of exactly the lower-cased word tokens of the joined text that
    are neither all digits nor excluded, each of them in lower case. *)
Theorem uniqueWords_hello_world :
  getUniqueWords ["Hello World"; "hello 123"] [] = ["hello"; "world"] /\
  (forall blocks excluded : list string,
      let result := getUniqueWords blocks excluded in
      ascending result /\
      NoDup result /\
      Forall lowercase result /\
      forall w : string,
        In w result <->
        (exists t, In t (matchWords (join " " blocks)) /\ w = toLowerCase t) /\
        isNumeric w = false /\
        ~ In w (map toLowerCase excluded)).
Proof.
  split; [reflexivity|].
  intros blocks excluded result. subst result.
  split; [apply WordFacts.sort_ascending|].
  split; [apply WordFacts.getUniqueWords_NoDup|].
  split.
  { eapply Forall_impl; [|apply WordFacts.getUniqueWords_tidy].
    intros w Hw. apply Hw. }
  intro w. rewrite WordFacts.getUniqueWords_In, in_map_iff.
  split; intros ((t & H1 & H2) & Hrest); (split; [exists t|exact Hrest]); auto.
Qed.

(** C6.  [getUniqueWords] on the words "vip", "score", "score" with "vip"
    excluded returns exactly "score"; and on every input a token that is
    equal, up to case, to a member of the excluded list is not in the
    result, neither as written nor in lower case. *)
Theorem uniqueWords_drops_excluded :
  getUniqueWords ["vip"; "score"; "score"] ["vip"] = ["score"] /\
  getUniqueWords ["vip score score"] ["vip"] = ["score"] /\
  (forall (blocks excluded : list string) (t e : string),
      In e excluded ->
      toLowerCase t = toLowerCase e ->
      ~ In (toLowerCase t) (getUniqueWords blocks excluded) /\
      ~ In t (getUniqueWords blocks excluded)).
Proof.
  split; [reflexivity|]. split; [reflexivity|].
  intros blocks excluded t e He Hte.
  assert (Hlow : ~ In (toLowerCase t) (getUniqueWords blocks excluded)).
  { intro H. apply WordFacts.getUniqueWords_In in H. destruct H as (_ & _ & Hex).
    apply Hex. rewrite Hte. now apply in_map. }
  split; [exact Hlow|].
  intro H. apply Hlow.
  pose proof (WordFacts.getUniqueWords_tidy blocks excluded) as Htidy.
  rewrite Forall_forall in Htidy. destruct (Htidy t H) as (Hl & _).
  now rewrite Hl.
Qed.

Lemma uniqueWords_drops_excluded_witness :
  ~ In (toLowerCase "VIP") (getUniqueWords ["VIP Score vip"] ["Vip"]) /\
  ~ In "VIP" (getUniqueWords ["VIP Score vip"] ["Vip"]).
Proof.
  apply (proj2 (proj2 uniqueWords_drops_excluded) ["VIP Score vip"] ["Vip"] "VIP" "Vip").
  - simpl. left. reflexivity.
  - reflexivity.
Defined.

(** ** The claims about the exclusion list *)

(** C7, as stated, fails at creation: the built-in default list, taken when
    local storage has no entry, is not sorted; and a stored array of strings
    is taken as it is, here with a member that is not lowercase. *)
Lemma creation_breaks_invariant :
  ~ invariant (excludedWords (mounted emptyStorage)) /\
  ~ invariant
      (excludedWords
         (mounted (storing spamArrayText
                     (Normal (VArray (map VString ["Spam"; "eggs"])))))).
Proof.
  split.
  - intros [_ H]. apply WordFacts.ascendingb_complete in H.
    vm_compute in H. discriminate.
  - intros [[H _] _]. apply Forall_inv in H. destruct H as (H & _).
    vm_compute in H. discriminate.
Qed.

(** C7, amended.  At creation the list is the built-in default list, whose
    members are lowercase, trimmed, non-empty and distinct, or the stored
    array of strings unchanged.  From a list whose members are lowercase,
    trimmed, non-empty and distinct, these properties hold after every
    sequence of add, remove and double-click-to-exclude actions; an action
    that inserts a word leaves the list sorted, and every action on a sorted
    list leaves it sorted. *)
Theorem excluded_words_stay_clean :
  clean INITIAL_EXCLUDED_WORDS /\
  (forall pf : Platform,
      initExcludedWords pf = INITIAL_EXCLUDED_WORDS \/
      exists (text : string) (items : list Value),
        getItem pf LOCAL_STORAGE_KEY = Normal (Some text) /\
        JSON_parse pf text = Normal (VArray items) /\
        forallb isString items = true /\
        initExcludedWords pf = map stringOf items) /\
  (forall s0 s : State,
      clean (excludedWords s0) ->
      uniqueWords s0 = [] ->
      reachable s0 s ->
      clean (excludedWords s) /\
      forall a : Action,
        offered s a ->
        clean (excludedWords (perform a s)) /\
        (ascending (excludedWords s) -> ascending (excludedWords (perform a s))) /\
        ((List.length (excludedWords s) < List.length (excludedWords (perform a s)))%nat ->
         ascending (excludedWords (perform a s)))).
Proof.
  split; [apply WordFacts.cleanb_sound; reflexivity|].
  split; [apply ListFacts.init_cases|].
  intros s0 s Hc Hu Hr.
  destruct (ListFacts.reachable_clean s0 s Hc) as [Hcs Hus];
    [rewrite Hu; constructor | exact Hr |].
  split; [exact Hcs|].
  intros a Ha. repeat split.
  - now apply ListFacts.perform_clean.
  - now apply ListFacts.perform_clean.
  - apply ListFacts.perform_ascending.
  - apply ListFacts.perform_longer_ascending.
Qed.

Lemma excluded_words_stay_clean_witness :
  clean (excludedWords
           (perform AddExcludedWord
              (perform (TypeWord "  Spam ") (mounted emptyStorage)))) /\
  excludedWords
    (perform AddExcludedWord (perform (TypeWord "  Spam ") (mounted emptyStorage)))
  = ["daily"; "get"; "guest"; "host"; "id"; "join"; "list"; "live"; "month";
     "monthly"; "rank"; "ranked"; "ream"; "resting"; "roam"; "spam"; "vip";
     "weekly"; "x"; "y"].
Proof.
  split; [|reflexivity].
  refine (proj1 (proj2 (proj2 excluded_words_stay_clean) (mounted emptyStorage)
                   (perform AddExcludedWord
                      (perform (TypeWord "  Spam ") (mounted emptyStorage)))
                   _ _ _)).
  - exact (proj1 excluded_words_stay_clean).
  - reflexivity.
  - apply (reach_step _ _ AddExcludedWord); [|exact I].
    apply (reach_step _ _ (TypeWord "  Spam ")); [apply reach_start | exact I].
Defined.

(** C9.  The initial exclusion list is the built-in default list when
    reading the entry throws, when there is no entry or an empty one, when
    the entry is not JSON, when it parses to something that is not an array,
    and when it parses to an array with an element that is not a string; it
    is the stored array itself when the entry parses to an array of
    strings.  No case throws: [initExcludedWords] is a total function. *)
Theorem stored_list_or_default :
  forall pf : Platform,
    (forall e, getItem pf LOCAL_STORAGE_KEY = Throw e ->
               initExcludedWords pf = INITIAL_EXCLUDED_WORDS) /\
    (getItem pf LOCAL_STORAGE_KEY = Normal None ->
     initExcludedWords pf = INITIAL_EXCLUDED_WORDS) /\
    (forall text : string,
        getItem pf LOCAL_STORAGE_KEY = Normal (Some text) ->
        (text = EmptyString -> initExcludedWords pf = INITIAL_EXCLUDED_WORDS) /\
        (forall e, JSON_parse pf text = Throw e ->
                   initExcludedWords pf = INITIAL_EXCLUDED_WORDS) /\
        (forall v, JSON_parse pf text = Normal v -> asArray v = None ->
                   initExcludedWords pf = INITIAL_EXCLUDED_WORDS) /\
        (forall items, JSON_parse pf text = Normal (VArray items) ->
                       (exists x, In x items /\ isString x = false) ->
                       initExcludedWords pf = INITIAL_EXCLUDED_WORDS) /\
        (forall ws : list string,
            text <> EmptyString ->
            JSON_parse pf text = Normal (VArray (map VString ws)) ->
            initExcludedWords pf = ws)).
Proof.
  intro pf. unfold initExcludedWords, readSaved.
  split; [intros e ->; reflexivity|].
  split; [intros ->; reflexivity|].
  intros text ->. simpl.
  split; [intros ->; reflexivity|].
  destruct (truthy text) eqn:Ht.
  - split; [intros e ->; reflexivity|].
    split; [intros v -> Hv; simpl; now rewrite Hv|].
    split.
    + intros items -> (x & Hin & Hx). simpl.
      destruct (forallb isString items) eqn:Hall; [|reflexivity].
      rewrite forallb_forall in Hall. rewrite (Hall x Hin) in Hx. discriminate.
    + intros ws _ ->. simpl.
      assert (Hall : forallb isString (map VString ws) = true)
        by (apply forallb_forall; intros x Hx; apply in_map_iff in Hx;
            destruct Hx as (w & <- & _); reflexivity).
      rewrite Hall, map_map. simpl. apply map_id.
  - repeat split; try reflexivity. intros ws Hne. destruct text; [congruence | discriminate].
Qed.

Lemma stored_list_or_default_witness :
  initExcludedWords emptyStorage = INITIAL_EXCLUDED_WORDS /\
  initExcludedWords (storing "not json" (Throw "SyntaxError")) = INITIAL_EXCLUDED_WORDS /\
  initExcludedWords (storing "42" (Normal (VNumber (42 # 1)))) = INITIAL_EXCLUDED_WORDS /\
  initExcludedWords (storing "[1]" (Normal (VArray [VNumber (1 # 1)])))
  = INITIAL_EXCLUDED_WORDS /\
  initExcludedWords
    (storing (spamArrayText) (Normal (VArray (map VString ["Spam"; "eggs"]))))
  = ["Spam"; "eggs"].
Proof.
  split.
  { destruct (stored_list_or_default emptyStorage) as (_ & Habsent & _).
    apply Habsent. reflexivity. }
  split.
  { destruct (stored_list_or_default (storing "not json" (Throw "SyntaxError")))
      as (_ & _ & Htext).
    destruct (Htext "not json" eq_refl) as (_ & Hbad & _).
    apply (Hbad "SyntaxError"). reflexivity. }
  split.
  { destruct (stored_list_or_default (storing "42" (Normal (VNumber (42 # 1)))))
      as (_ & _ & Htext).
    destruct (Htext "42" eq_refl) as (_ & _ & Hnot & _).
    apply (Hnot (VNumber (42 # 1))); reflexivity. }
  split.
  { destruct (stored_list_or_default
                (storing "[1]" (Normal (VArray [VNumber (1 # 1)]))))
      as (_ & _ & Htext).
    destruct (Htext "[1]" eq_refl) as (_ & _ & _ & Helem & _).
    apply (Helem [VNumber (1 # 1)]).
    - reflexivity.
    - exists (VNumber (1 # 1)). split; [simpl; left; reflexivity | reflexivity]. }
  destruct (stored_list_or_default
              (storing spamArrayText (Normal (VArray (map VString ["Spam"; "eggs"])))))
    as (_ & _ & Htext).
  destruct (Htext spamArrayText eq_refl) as (_ & _ & _ & _ & Hok).
  apply Hok.
  - discriminate.
  - reflexivity.
Defined.

(** ** The claim about the CSV export *)

(** C10.  With no unique words [downloadCsv] does nothing to the document.
    With some, it clicks one link named extracted_words.csv whose target is
    the encoded data URL of the payload, and the lines of the payload are
    the header "Extracted Words" followed by the words, one per line. *)
Theorem downloadCsv_needs_words :
  forall s : State,
    (uniqueWords s = [] -> downloadCsv s = []) /\
    (uniqueWords s <> [] ->
     exists link : Link,
       downloadCsv s = [AppendChild link; Click link; RemoveChild link] /\
       download link = "extracted_words.csv" /\
       href link = encodeURI ("data:text/csv;charset=utf-8," ++ csvPayload (uniqueWords s)) /\
       (Forall oneLine (uniqueWords s) ->
        split LF (csvPayload (uniqueWords s)) = "Extracted Words" :: uniqueWords s)).
Proof.
  intro s. unfold downloadCsv. split.
  - intros ->. reflexivity.
  - intro Hne. destruct (uniqueWords s) as [|w ws]; [congruence|].
    eexists. split; [reflexivity|]. repeat split.
    apply ListFacts.csvPayload_lines.
Qed.

Lemma downloadCsv_needs_words_witness :
  downloadCsv (setUniqueWords [] (mounted emptyStorage)) = [] /\
  exists link : Link,
    downloadCsv (setUniqueWords ["hello"; "world"] (mounted emptyStorage))
    = [AppendChild link; Click link; RemoveChild link] /\
    download link = "extracted_words.csv" /\
    href link = encodeURI ("data:text/csv;charset=utf-8," ++ csvPayload ["hello"; "world"]) /\
    (Forall oneLine ["hello"; "world"] ->
     split LF (csvPayload ["hello"; "world"]) = ["Extracted Words"; "hello"; "world"]).
Proof.
  split.
  - apply (proj1 (downloadCsv_needs_words (setUniqueWords [] (mounted emptyStorage)))).
    reflexivity.
  - apply (proj2 (downloadCsv_needs_words
                    (setUniqueWords ["hello"; "world"] (mounted emptyStorage)))).
    simpl. discriminate.
Defined.

(** * The counter of the sampler beyond the safe integers *)

Module DoubleFacts.

Import SamplerSpec.

(** The spacing of the doubles around [n], beyond 2^53. *)
Local Abbreviation spacing n := (2 ^ (Z.log2 n - 52))%Z.

Lemma log2_large (n : Z) : (maxSafe < n)%Z -> (53 <= Z.log2 n)%Z.
Proof.
  intro H. change 53%Z with (Z.log2 maxSafe).
  apply Z.log2_le_mono. lia.
Qed.

Lemma spacing_even (n : Z) :
  (maxSafe < n)%Z -> exists h : Z, (0 < h)%Z /\ spacing n = (2 * h)%Z.
Proof.
  intro H. pose proof (log2_large n H) as HL.
  exists (2 ^ (Z.log2 n - 53))%Z. split.
  - apply Z.pow_pos_nonneg; lia.
  - rewrite <- Z.pow_succ_r by lia. f_equal. lia.
Qed.

(** Beyond 2^53 the nearest double is a multiple of the spacing, the one
    below or the one above. *)
Lemma nearestDouble_large (n : Z) :
  (maxSafe < n)%Z ->
  let u := spacing n in
  JS.nearestDouble n
  = ((if (2 * (n mod u) <? u)%Z then n / u
      else if (u <? 2 * (n mod u))%Z then n / u + 1
      else if Z.even (n / u) then n / u else n / u + 1) * u)%Z.
Proof.
  intro H. unfold JS.nearestDouble, maxSafe in *.
  rewrite Z.abs_eq by lia.
  assert (E : (n <=? 2 ^ 53)%Z = false) by (apply Z.leb_gt; exact H).
  rewrite E, Z.sgn_pos by lia. cbn zeta. now rewrite Z.mul_1_l.
Qed.

(** A double beyond 2^53 is a multiple of its spacing. *)
Lemma isDouble_multiple (n : Z) :
  (maxSafe < n)%Z -> JS.isDouble n -> (spacing n | n)%Z.
Proof.
  intros H Hd. unfold JS.isDouble in Hd.
  rewrite (nearestDouble_large n H) in Hd. cbn zeta in Hd.
  eexists. symmetry. exact Hd.
Qed.

(** The increment of a number from 2^53 on stays below every larger
    double. *)
Lemma increment_below (c e : Z) :
  (maxSafe <= c)%Z -> (c < e)%Z -> JS.isDouble e -> (JS.increment c <= e)%Z.
Proof.
  intros Hc Hce He. unfold JS.increment.
  assert (Hx : (maxSafe < c + 1)%Z) by lia.
  assert (Hbig : (maxSafe < e)%Z) by lia.
  rewrite (nearestDouble_large _ Hx). cbn zeta.
  pose proof (log2_large _ Hx) as HLx.
  assert (HL : (Z.log2 (c + 1) <= Z.log2 e)%Z) by (apply Z.log2_le_mono; lia).
  set (u := spacing (c + 1)).
  assert (Hu : (0 < u)%Z) by (apply Z.pow_pos_nonneg; lia).
  assert (Hdiv : (u | e)%Z).
  { apply Z.divide_trans with (spacing e); [|now apply isDouble_multiple].
    exists (2 ^ (Z.log2 e - Z.log2 (c + 1)))%Z.
    unfold u. rewrite <- Z.pow_add_r by lia. f_equal. lia. }
  destruct Hdiv as [m Hm].
  pose proof (Z.div_mod (c + 1) u ltac:(lia)) as Hdm.
  pose proof (Z.mod_pos_bound (c + 1) u Hu) as Hr.
  set (q := ((c + 1) / u)%Z) in *. set (r := ((c + 1) mod u)%Z) in *.
  assert (Hdown : (q * u <= e)%Z) by nia.
  assert (Hup : (0 < r -> (q + 1) * u <= e)%Z).
  { intro Hpos. assert (q < m)%Z by nia. nia. }
  destruct (2 * r <? u)%Z eqn:E1; [exact Hdown|].
  apply Z.ltb_ge in E1.
  destruct (u <? 2 * r)%Z eqn:E2; [apply Hup; lia|].
  destruct (Z.even q); [exact Hdown | apply Hup; lia].
Qed.

(** One more than a double beyond 2^53 lies in the same binade, one above a
    multiple of the spacing. *)
Lemma above_double (c : Z) :
  (maxSafe < c)%Z -> JS.isDouble c ->
  Z.log2 (c + 1) = Z.log2 c /\
  ((c + 1) / spacing c = c / spacing c)%Z /\
  ((c + 1) mod spacing c = 1)%Z /\
  (c = c / spacing c * spacing c)%Z.
Proof.
  intros Hc Hd.
  pose proof (log2_large c Hc) as HL.
  destruct (isDouble_multiple c Hc Hd) as [k Hk].
  destruct (spacing_even c Hc) as (h & Hh & Hu).
  destruct (Z.log2_spec c ltac:(unfold maxSafe in Hc; lia)) as [Hlo Hhi].
  assert (Htop : (2 ^ Z.succ (Z.log2 c) = 2 ^ 53 * spacing c)%Z).
  { rewrite <- Z.pow_add_r by lia. f_equal. lia. }
  assert (Hk53 : (k < 2 ^ 53)%Z) by nia.
  assert (Hlog : Z.log2 (c + 1) = Z.log2 c).
  { apply Z.log2_unique; [lia|]. split; [lia|]. nia. }
  assert (Hq : (c / spacing c = k)%Z).
  { symmetry. apply (Z.div_unique_pos c (spacing c) k 0); lia. }
  split; [exact Hlog|]. rewrite Hq.
  assert (Hdm : (c + 1 = spacing c * k + 1)%Z) by lia.
  split; [|split].
  - symmetry. apply (Z.div_unique_pos (c + 1) (spacing c) k 1); lia.
  - symmetry. apply (Z.mod_unique_pos (c + 1) (spacing c) k 1); lia.
  - exact Hk.
Qed.

(** From 2^53 on the counter makes at most one step: the increment of a
    double is the double itself, or the next one, and that one stays. *)
Lemma increment_sticks (c : Z) :
  (maxSafe <= c)%Z -> JS.isDouble c ->
  (c <= JS.increment c)%Z /\ JS.increment (JS.increment c) = JS.increment c.
Proof.
  intros Hc Hd.
  destruct (Z.eq_dec c maxSafe) as [->|Hne]; [vm_compute; split; [discriminate | reflexivity]|].
  assert (Hbig : (maxSafe < c)%Z) by lia.
  destruct (above_double c Hbig Hd) as (Hlog & Hq & Hr & Hk).
  pose proof (log2_large c Hbig) as HL.
  destruct (spacing_even c Hbig) as (h & Hh & Hu).
  assert (Hinc : JS.increment c
                 = ((if (2 <? spacing c)%Z then c / spacing c
                     else if Z.even (c / spacing c) then c / spacing c
                          else c / spacing c + 1) * spacing c)%Z).
  { unfold JS.increment. rewrite (nearestDouble_large (c + 1)) by lia.
    cbn zeta. rewrite Hlog, Hq, Hr. change (2 * 1)%Z with 2%Z.
    destruct (2 <? spacing c)%Z eqn:E; [reflexivity|].
    apply Z.ltb_ge in E.
    assert (E2 : (spacing c <? 2)%Z = false) by (apply Z.ltb_ge; lia).
    now rewrite E2. }
  revert Hinc.
  destruct (2 <? spacing c)%Z eqn:E;
    [intro Hinc; rewrite <- Hk in Hinc; rewrite Hinc; split; [lia | exact Hinc]|].
  destruct (Z.even (c / spacing c)) eqn:Ev;
    [intro Hinc; rewrite <- Hk in Hinc; rewrite Hinc; split; [lia | exact Hinc]|].
  intro Hinc.
  (* the significand is odd and the spacing is 2 *)
  apply Z.ltb_ge in E.
  assert (Hs : spacing c = 2%Z) by lia.
  set (k := (c / spacing c)%Z) in *. clearbody k. rewrite Hs in *.
  assert (Hd2 : JS.increment c = (c + 2)%Z) by (rewrite Hinc; clear - Hk; lia).
  rewrite Hd2. split; [lia|].
  assert (HL53 : Z.log2 c = 53%Z).
  { assert (Z.log2 c - 52 = 1)%Z; [|lia].
    apply (Z.pow_inj_r 2); lia. }
  unfold maxSafe in *.
  destruct (Z.log2_spec c ltac:(lia)) as [_ Hhi]. rewrite HL53 in Hhi.
  change (2 ^ Z.succ 53)%Z with (2 ^ 54)%Z in Hhi.
  destruct (Z.eq_dec (c + 2) (2 ^ 54)) as [Etop|Htop].
  { rewrite Etop. vm_compute. reflexivity. }
  assert (Hlog2 : Z.log2 (c + 2 + 1) = 53%Z).
  { apply Z.log2_unique; [lia|].
    change (2 ^ (53 + 1))%Z with (2 ^ 54)%Z. split; [lia|].
    assert (c + 2 <= 2 ^ 54)%Z by lia. lia. }
  unfold JS.increment. rewrite (nearestDouble_large (c + 2 + 1)) by (unfold maxSafe; lia).
  cbn zeta. rewrite Hlog2. change (2 ^ (53 - 52))%Z with 2%Z.
  assert (Hq2 : ((c + 2 + 1) / 2 = k + 1)%Z)
    by (symmetry; apply (Z.div_unique_pos (c + 2 + 1) 2 (k + 1) 1); lia).
  assert (Hr2 : ((c + 2 + 1) mod 2 = 1)%Z)
    by (symmetry; apply (Z.mod_unique_pos (c + 2 + 1) 2 (k + 1) 1); lia).
  rewrite Hq2, Hr2. change (2 * 1 <? 2)%Z with false. change (2 <? 2 * 1)%Z with false.
  cbn match.
  assert (Ev2 : Z.even (k + 1) = true).
  { rewrite Z.even_add, Ev. reflexivity. }
  rewrite Ev2. lia.
Qed.

End DoubleFacts.

(** * Further properties of the frame sampler *)

Module SamplerTraces.

Import VideoUtils SamplerSpec.

Lemma zrange_snoc c n :
  zrange c (S n) = (zrange c n ++ [(c + Z.of_nat n)%Z])%list.
Proof.
  revert c. induction n as [|n IH]; intro c.
  - simpl. now rewrite Z.add_0_r.
  - change (zrange c (S (S n))) with (c :: zrange (c + 1) (S n)).
    rewrite IH. simpl. do 3 f_equal. lia.
Qed.

Section Traces.

Variable browser : Browser.
Variables startTime endTime : Q.

Local Abbreviation step := (dispatch browser startTime endTime).
Local Abbreviation Kept := (PageSpec.Kept browser startTime endTime).
Local Abbreviation Counted := (PageSpec.Counted startTime).

Lemma Kept_created : Kept (created startTime).
Proof. split; simpl; try reflexivity; discriminate. Qed.

Lemma Kept_arrive s : Kept s -> Kept (arrive s).
Proof.
  intros [H1 H2 H3 H4]. unfold arrive. destruct (seeking s); now split.
Qed.

Lemma Kept_captureFrame s : Kept s -> Kept (captureFrame browser startTime endTime s).
Proof.
  intros [H3 H4 H5 H6]. unfold captureFrame.
  destruct (context browser); cbn [negb].
  - destruct (Qle_bool (inject_Z (JS.increment (currentTime s))) endTime);
      split; cbn [frames currentTime progress promise revoked];
      rewrite ?length_app; cbn [List.length]; rewrite ?Nat.add_1_r.
    all: try solve [rewrite seq_S, map_app, H3; reflexivity].
    all: destruct (promise s) as [|old|reason] eqn:Hp; cbn [held settle];
      try discriminate; try (intros fs Hfs; injection Hfs as <-).
    all: try reflexivity.
    all: try (split; [now destruct (frames s) | ]).
    all: try lia.
    all: try (destruct (H5 old eq_refl) as [_ Hr]; lia).
    all: try (now apply H4).
  - split; cbn [frames currentTime progress promise revoked]; try assumption.
    + destruct (promise s) eqn:Hp; cbn [settle]; try discriminate.
    + destruct (promise s) eqn:Hp; cbn [settle]; intros fs Hfs;
        [discriminate | now apply H5 | discriminate].
    + destruct (promise s) eqn:Hp; cbn [settle]; intros fs Hfs;
        [discriminate | now apply H6 | discriminate].
Qed.

Lemma Kept_step s e : Kept s -> Kept (step s e).
Proof.
  intro H. destruct e as [| |message]; simpl.
  - destruct H as [H3 H4 H5 H6]. now split.
  - now apply Kept_captureFrame, Kept_arrive.
  - destruct H as [H3 H4 H5 H6]. unfold onError.
    split; cbn [frames currentTime progress promise revoked]; try assumption.
    + destruct (promise s) eqn:Hp; cbn [settle]; try discriminate.
    + destruct (promise s) eqn:Hp; cbn [settle]; intros fs Hfs; try discriminate.
      destruct (H5 fs Hfs) as [Hne Hr]. split; [exact Hne | lia].
    + destruct (promise s) eqn:Hp; cbn [settle]; intros fs Hfs; try discriminate.
      now apply H6.
Qed.

Lemma Kept_fold events : forall s, Kept s -> Kept (fold_left step events s).
Proof.
  induction events as [|e events IH]; intros s H; simpl; [exact H|].
  now apply IH, Kept_step.
Qed.

Lemma Kept_after events : Kept (after browser startTime endTime events).
Proof. apply Kept_fold, Kept_created. Qed.

Lemma Kept_answerSeeks fuel :
  forall s, Kept s -> Kept (answerSeeks browser startTime endTime fuel s).
Proof.
  induction fuel as [|fuel IH]; intros s H; simpl; [exact H|].
  destruct (seeking s); [|exact H]. now apply IH, (Kept_step s seeked).
Qed.

Lemma Kept_extract fuel : Kept (extractFramesFromVideo browser startTime endTime fuel).
Proof.
  apply Kept_answerSeeks, (Kept_step _ loadedmetadata), Kept_created.
Qed.

(** The counter and the [id]s, while the counter is safe. *)

Lemma Counted_created : Counted (created startTime).
Proof. intros _. simpl. split; [reflexivity | lia]. Qed.

Lemma Counted_captureFrame s :
  (- maxSafe <= Qfloor startTime)%Z ->
  Counted s -> Counted (captureFrame browser startTime endTime s).
Proof.
  intros Hlo H. unfold captureFrame.
  destruct (context browser); cbn [negb]; [|exact H].
  assert (Hnew :
    (Qfloor startTime + Z.of_nat (S (List.length (frames s))) <= maxSafe)%Z ->
    map id (frames s ++ [{| id := currentTime s;
                            imageDataUrl := toDataURL browser (canvas s) (position s) |}])
    = zrange (Qfloor startTime) (S (List.length (frames s))) /\
    JS.increment (currentTime s)
    = (Qfloor startTime + Z.of_nat (S (List.length (frames s))))%Z).
  { intro Hb. destruct H as [Hids Hc]; [lia|].
    split.
    - rewrite map_app, Hids, zrange_snoc, Hc. reflexivity.
    - rewrite SamplerFacts.increment_exact; rewrite Hc; lia. }
  destruct (Qle_bool (inject_Z (JS.increment (currentTime s))) endTime);
    intro Hb; cbn [frames currentTime] in *;
    rewrite length_app in *; cbn [List.length] in *; rewrite Nat.add_1_r in *;
    now apply Hnew.
Qed.

Lemma Counted_step s e :
  (- maxSafe <= Qfloor startTime)%Z -> Counted s -> Counted (step s e).
Proof.
  intros Hlo H. destruct e as [| |message]; simpl.
  - exact H.
  - apply Counted_captureFrame; [exact Hlo|].
    unfold arrive. now destruct (seeking s).
  - exact H.
Qed.

Lemma Counted_after events :
  (- maxSafe <= Qfloor startTime)%Z ->
  Counted (after browser startTime endTime events).
Proof.
  intro Hlo. unfold after.
  assert (G : forall s, Counted s -> Counted (fold_left step events s)).
  { induction events as [|e events IH]; intros s H; simpl; [exact H|].
    now apply IH, Counted_step. }
  apply G, Counted_created.
Qed.

(** After the promise is settled *)

Lemma rejected_step s e reason :
  promise s = Rejected reason -> promise (step s e) = Rejected reason.
Proof.
  intro H. destruct e as [| |message]; simpl; [exact H | |].
  - unfold captureFrame, arrive.
    destruct (seeking s), (context browser); cbn [negb promise];
      try (destruct (Qle_bool _ endTime); cbn [promise]);
      rewrite H; reflexivity.
  - now rewrite H.
Qed.

Lemma resolved_step s e fs :
  Kept s ->
  promise s = Resolved fs ->
  exists later,
    promise (step s e) = Resolved (fs ++ later) /\
    frames (step s e) = (fs ++ later)%list.
Proof.
  intros HK H. pose proof (PageSpec.kept_live _ _ _ _ HK fs H) as Hlive.
  destruct e as [| |message]; simpl.
  - exists []. rewrite app_nil_r. now split.
  - unfold captureFrame.
    assert (Ha : promise (arrive s) = Resolved fs /\ frames (arrive s) = fs)
      by (unfold arrive; destruct (seeking s); now split).
    destruct Ha as [Hp Hf].
    destruct (context browser); cbn [negb].
    + eexists. destruct (Qle_bool _ endTime); cbn [promise frames];
        rewrite Hp, Hf; cbn [held settle]; split; reflexivity.
    + exists []. cbn [promise frames]. rewrite Hp, Hf, app_nil_r. now split.
  - exists []. rewrite H, app_nil_r. now split.
Qed.

Lemma resolved_fold more :
  forall s fs,
    Kept s ->
    promise s = Resolved fs ->
    exists later,
      promise (fold_left step more s) = Resolved (fs ++ later) /\
      frames (fold_left step more s) = (fs ++ later)%list.
Proof.
  induction more as [|e more IH]; intros s fs HK H; simpl.
  - exists []. rewrite app_nil_r. split; [exact H|].
    symmetry. now apply (PageSpec.kept_live _ _ _ _ HK).
  - destruct (resolved_step s e fs HK H) as (l1 & Hp1 & Hf1).
    destruct (IH (step s e) (fs ++ l1)%list (Kept_step s e HK) Hp1)
      as (l2 & Hp2 & Hf2).
    exists (l1 ++ l2)%list. rewrite app_assoc. now split.
Qed.

Lemma rejected_fold more :
  forall s reason,
    promise s = Rejected reason ->
    promise (fold_left step more s) = Rejected reason.
Proof.
  induction more as [|e more IH]; intros s reason H; simpl; [exact H|].
  now apply IH, rejected_step.
Qed.

(** The run on an interval whose end lies before the second after
    [floor(startTime)]: one capture. *)
Lemma extract_single fuel :
  context browser = true ->
  (Qfloor endTime <= Qfloor startTime)%Z ->
  (- maxSafe <= Qfloor startTime + 1 <= maxSafe)%Z ->
  (1 <= fuel)%nat ->
  let s := extractFramesFromVideo browser startTime endTime fuel in
  promise s = Resolved [frameAt browser (videoWidth browser, videoHeight browser)
                                (Qfloor startTime)] /\
  frames s = [frameAt browser (videoWidth browser, videoHeight browser)
                      (Qfloor startTime)] /\
  revoked s = 1%nat.
Proof.
  intros Hctx Hle Hsafe Hfuel. destruct fuel as [|fuel]; [lia|].
  cbn zeta. unfold extractFramesFromVideo. cbn [answerSeeks].
  set (s0 := dispatch browser startTime endTime (created startTime) loadedmetadata).
  assert (Hseek : seeking s0 = Some (currentTime s0)) by reflexivity.
  rewrite Hseek.
  destruct (SamplerFacts.seeked_step browser startTime endTime Hctx s0 Hseek eq_refl)
    as (Hf & Hc & _ & Hrest); [exact Hsafe|].
  assert (Hout : Qle_bool (inject_Z (currentTime s0 + 1)) endTime = false)
    by (apply SamplerFacts.counter_gt_end; simpl; lia).
  rewrite Hout in Hrest. destruct Hrest as (Hs & Hp & Hr).
  assert (E : answerSeeks browser startTime endTime fuel
                (dispatch browser startTime endTime s0 seeked)
              = dispatch browser startTime endTime s0 seeked)
    by (destruct fuel; cbn [answerSeeks]; [reflexivity | now rewrite Hs]).
  rewrite E, Hp, Hf, Hr. auto.
Qed.

(** The run on any interval of safe times. *)
Lemma extract_any fuel :
  context browser = true ->
  PageSpec.safeTimes startTime endTime ->
  (PageSpec.frameCount startTime endTime <= fuel)%nat ->
  let s := extractFramesFromVideo browser startTime endTime fuel in
  let fs := map (frameAt browser (videoWidth browser, videoHeight browser))
                (zrange (Qfloor startTime) (PageSpec.frameCount startTime endTime)) in
  promise s = Resolved fs /\ frames s = fs /\ revoked s = 1%nat.
Proof.
  intros Hctx (H0 & Hs & He) Hfuel. unfold PageSpec.frameCount in *.
  apply SamplerFacts.floor_nonneg in H0.
  apply SamplerFacts.floor_below in Hs, He.
  destruct (Z_le_gt_dec (Qfloor endTime) (Qfloor startTime)) as [Hle|Hgt].
  - replace (Z.to_nat (Z.max 1 (Qfloor endTime - Qfloor startTime + 1))) with 1%nat
      in * by lia.
    apply extract_single; try assumption. unfold maxSafe in *. lia.
  - set (n := Z.to_nat (Qfloor endTime - Qfloor startTime)).
    replace (Z.to_nat (Z.max 1 (Qfloor endTime - Qfloor startTime + 1))) with (S n)
      in * by lia.
    destruct (SamplerFacts.answerSeeks_completes browser startTime endTime Hctx He n
                (dispatch browser startTime endTime (created startTime) loadedmetadata)
                fuel) as (Hp & Hf & Hr);
      try reflexivity; [simpl; unfold maxSafe; lia | simpl; subst n; lia | lia |].
    cbn zeta. unfold extractFramesFromVideo. now rewrite Hp, Hf, Hr.
Qed.

End Traces.

(** Outside the safe integers the counter skips: from -2^53 - 2 the
    increment rounds to -2^53, so on the three whole seconds from -2^53 - 2
    to -2^53 the sampler resolves after two captures. *)
Remark counter_skips_outside_safe_integers :
  let startTime := inject_Z (- maxSafe - 2) in
  let endTime := inject_Z (- maxSafe) in
  PageSpec.frameCount startTime endTime = 3%nat /\
  map id (frames (extractFramesFromVideo sampleBrowser startTime endTime 2))
  = [(- maxSafe - 2)%Z; (- maxSafe)%Z] /\
  promise (extractFramesFromVideo sampleBrowser startTime endTime 2)
  = Resolved (frames (extractFramesFromVideo sampleBrowser startTime endTime 2)).
Proof. vm_compute. repeat split. Qed.

End SamplerTraces.

(** * Further properties of the OCR service *)

Module DataUrlFacts.

Import JS GeminiService PageSpec.

Lemma prefix_split a : forall s, String.prefix a s = true -> exists r, s = (a ++ r)%string.
Proof.
  induction a as [|c a IH]; intros s H.
  - now exists s.
  - destruct s as [|d s]; simpl in H; [discriminate|].
    destruct (ascii_dec c d) as [<-|]; [|discriminate].
    destruct (IH s H) as [r ->]. now exists r.
Qed.

Lemma prefix_app a r : String.prefix a (a ++ r) = true.
Proof.
  induction a as [|c a IH]; simpl; [now destruct r|].
  destruct (ascii_dec c c); [exact IH | congruence].
Qed.

Lemma substring_whole s : String.substring 0 (String.length s) s = s.
Proof. induction s; simpl; [reflexivity | now rewrite IHs]. Qed.

Lemma noComma_app s t : noComma (s ++ t) <-> noComma s /\ noComma t.
Proof.
  unfold noComma. rewrite WordFacts.allChars_app, andb_true_iff. tauto.
Qed.

Lemma noComma_no_marker s : noComma s -> String.prefix ";base64," s = false.
Proof.
  intro H. destruct (String.prefix ";base64," s) eqn:E; [|reflexivity].
  apply prefix_split in E. destruct E as [r ->].
  apply noComma_app in H. destruct H as [H _]. vm_compute in H. discriminate.
Qed.

Lemma dotStarThen_noComma s : noComma s -> dotStarThen ";base64," s = None.
Proof.
  induction s as [|c s IH]; intro H; [reflexivity|].
  assert (Hs : noComma s) by (unfold noComma in *; simpl in H; now apply andb_prop in H).
  cbn [dotStarThen]. rewrite (IH Hs), (noComma_no_marker _ H).
  now destruct (isLineTerminator c).
Qed.

Lemma dotStarThen_skip pat c s :
  isLineTerminator c = false ->
  dotStarThen pat s = None ->
  String.prefix pat (String c s) = false ->
  dotStarThen pat (String c s) = None.
Proof. intros Hc Hs Hp. cbn [dotStarThen]. now rewrite Hc, Hs, Hp. Qed.

Lemma dotStarThen_marker payload :
  noComma payload ->
  dotStarThen ";base64," (";base64," ++ payload) = Some EmptyString.
Proof.
  intro H.
  assert (Hrest : dotStarThen ";base64," ("base64," ++ payload) = None).
  { repeat (apply dotStarThen_skip; [reflexivity | | reflexivity]).
    now apply dotStarThen_noComma. }
  change ((";base64," ++ payload)%string) with (String ";" ("base64," ++ payload)).
  cbn [dotStarThen]. rewrite Hrest.
  change (String ";" ("base64," ++ payload)) with ((";base64," ++ payload)%string).
  rewrite prefix_app. reflexivity.
Qed.

(** The capture group of a data URL is its mime type. *)
Lemma dotStarThen_mime mime payload :
  plainMime mime -> noComma payload ->
  dotStarThen ";base64," (mime ++ ";base64," ++ payload) = Some mime.
Proof.
  unfold plainMime. intros Hm Hp. induction mime as [|c mime IH].
  - now apply dotStarThen_marker.
  - simpl in Hm. apply andb_prop in Hm. destruct Hm as [Hc Hm].
    apply andb_prop in Hc. destruct Hc as [_ Hlt]. apply negb_true_iff in Hlt.
    change ((String c mime ++ ";base64," ++ payload)%string)
      with (String c (mime ++ ";base64," ++ payload)).
    cbn [dotStarThen]. now rewrite Hlt, (IH Hm).
Qed.

(** What the capture group says about the text. *)
Lemma dotStarThen_sound pat s :
  forall g,
    dotStarThen pat s = Some g ->
    (exists rest, s = (g ++ pat ++ rest)%string) /\
    allChars (fun c => negb (isLineTerminator c)) g = true.
Proof.
  induction s as [|c s IH]; intros g H.
  - cbn [dotStarThen] in H.
    destruct (String.prefix pat EmptyString) eqn:E; [|discriminate].
    injection H as <-. split; [|reflexivity].
    apply prefix_split in E. destruct E as [r E]. now exists r.
  - cbn [dotStarThen] in H.
    destruct (isLineTerminator c) eqn:Hlt; cbn [option_map] in H.
    + destruct (String.prefix pat (String c s)) eqn:E; [|discriminate].
      injection H as <-. split; [|reflexivity].
      apply prefix_split in E. destruct E as [r E]. now exists r.
    + destruct (dotStarThen pat s) as [g0|] eqn:Hrec; cbn [option_map] in H.
      * injection H as <-. destruct (IH g0 eq_refl) as [[rest ->] Hg].
        split; [now exists rest|]. simpl. now rewrite Hlt.
      * destruct (String.prefix pat (String c s)) eqn:E; [|discriminate].
        injection H as <-. split; [|reflexivity].
        apply prefix_split in E. destruct E as [r E]. now exists r.
Qed.

(** [split] on a separator that the first piece does not contain. *)
Lemma splitAux_free sep w :
  forall acc s,
    allChars (fun c => negb (Ascii.eqb c sep)) w = true ->
    splitAux sep acc (w ++ s) = splitAux sep (acc ++ w) s.
Proof.
  induction w as [|c w IH]; intros acc s H; simpl in *.
  - now rewrite ListFacts.append_empty.
  - apply andb_prop in H. destruct H as [Hc Hw].
    apply negb_true_iff in Hc. rewrite Hc, (IH _ _ Hw), ListFacts.append_assoc.
    reflexivity.
Qed.

Lemma split_second pre payload :
  noComma pre -> noComma payload ->
  nth_error (split "," (pre ++ "," ++ payload)) 1 = Some payload.
Proof.
  intros Hpre Hp. unfold split.
  rewrite (splitAux_free "," pre _ _ Hpre).
  change (("," ++ payload)%string) with (String "," payload).
  cbn [splitAux]. rewrite Ascii.eqb_refl. cbn [nth_error].
  rewrite <- (ListFacts.append_empty payload) at 1.
  rewrite (splitAux_free "," payload _ _ Hp). reflexivity.
Qed.

Lemma matchDataUrl_data rest :
  matchDataUrl ("data:" ++ rest) = dotStarThen ";base64," rest.
Proof.
  unfold matchDataUrl. rewrite prefix_app.
  replace (String.length ("data:" ++ rest) - 5)%nat with (String.length rest)
    by (simpl; lia).
  change (String.substring 5 (String.length rest) ("data:" ++ rest))
    with (String.substring 0 (String.length rest) rest).
  now rewrite substring_whole.
Qed.

Lemma matchDataUrl_sound url mime :
  matchDataUrl url = Some mime ->
  (exists rest, url = ("data:" ++ mime ++ ";base64," ++ rest)%string) /\
  allChars (fun c => negb (isLineTerminator c)) mime = true.
Proof.
  unfold matchDataUrl. destruct (String.prefix "data:" url) eqn:E; [|discriminate].
  apply prefix_split in E. destruct E as [r ->].
  replace (String.length ("data:" ++ r) - 5)%nat with (String.length r)
    by (simpl; lia).
  change (String.substring 5 (String.length r) ("data:" ++ r))
    with (String.substring 0 (String.length r) r).
  rewrite substring_whole. intro H.
  apply dotStarThen_sound in H. destruct H as [[rest ->] Hg].
  split; [now exists rest | exact Hg].
Qed.

Lemma dataUrl_text mime payload :
  ("data:" ++ mime ++ ";base64," ++ payload)%string
  = (("data:" ++ mime ++ ";base64") ++ "," ++ payload)%string.
Proof.
  change (("data:" ++ mime ++ ";base64") ++ "," ++ payload)%string
    with ("data:" ++ ((mime ++ ";base64") ++ "," ++ payload))%string.
  now rewrite ListFacts.append_assoc.
Qed.

End DataUrlFacts.

Module LoopFacts.

Import JS GeminiService OcrSpec PageSpec.

Lemma iteration_consoleErrors ai n i frame r :
  consoleErrors (iteration ai n i frame r)
  = (consoleErrors r ++
       match requestText ai i frame with
       | Throw e => [(id frame, e)]
       | Normal _ => []
       end)%list.
Proof.
  unfold iteration, tryBlock.
  destruct (requestText ai i frame) as [[t|]|e]; simpl;
    [destruct (truthy t); simpl | |]; now rewrite ?app_nil_r.
Qed.


Lemma loop_consoleErrors ai n frames :
  forall i r,
    consoleErrors (loop ai n i frames r)
    = (consoleErrors r ++ failures ai i frames)%list.
Proof.
  induction frames as [|frame rest IH]; intros i r; simpl.
  - now rewrite app_nil_r.
  - rewrite IH, iteration_consoleErrors, <- app_assoc.
    now destruct (requestText ai i frame).
Qed.



Lemma failures_invalid ai frames :
  forall i,
    Forall (fun f => matchDataUrl (imageDataUrl f) = None) frames ->
    failures ai i frames = map (fun f => (id f, "Invalid data URL format")) frames /\
    textBlocks ai i frames = [].
Proof.
  unfold textBlocks.
  induction frames as [|frame rest IH]; intros i H; simpl; [now split|].
  inversion H as [|? ? Hf Hrest]; subst.
  destruct (IH (S i) Hrest) as [IHf IHt].
  unfold requestText, dataUrlToPart. rewrite Hf. simpl.
  now rewrite IHf, IHt.
Qed.

End LoopFacts.

(** * Further properties of the text normalisation and the exclusion list *)

Module WordMore.

Import JS App WordSpec WordFacts.

(** A space ends the token being read. *)
Lemma wordRuns_space s :
  forall acc t,
    wordRuns acc (s ++ String " " t) = (wordRuns acc s ++ matchWords t)%list.
Proof.
  induction s as [|c s IH]; intros acc t; simpl.
  - reflexivity.
  - destruct (isWordChar c); [apply IH|].
    rewrite IH, app_assoc. reflexivity.
Qed.

Lemma matchWords_join blocks :
  matchWords (join " " blocks) = flat_map matchWords blocks.
Proof.
  unfold join. induction blocks as [|b rest IH]; [reflexivity|].
  destruct rest as [|b2 rest].
  - simpl. now rewrite app_nil_r.
  - change (String.concat " " (b :: b2 :: rest))
      with (b ++ String " " (String.concat " " (b2 :: rest)))%string.
    unfold matchWords at 1. rewrite wordRuns_space, IH. reflexivity.
Qed.

(** A token is its own only match. *)
Lemma wordRuns_token w :
  forall acc, allChars isWordChar w = true -> wordRuns acc w = flush (acc ++ w).
Proof.
  induction w as [|c w IH]; intros acc H; simpl.
  - now rewrite ListFacts.append_empty.
  - simpl in H. apply andb_prop in H. destruct H as [Hc Hw].
    rewrite Hc, (IH _ Hw), ListFacts.append_assoc. reflexivity.
Qed.

Lemma matchWords_token w : token w -> matchWords w = [w].
Proof.
  intros [Hne Hw]. unfold matchWords. rewrite (wordRuns_token w _ Hw).
  simpl. now destruct w.
Qed.

Lemma token_toLowerCase t : token t -> token (toLowerCase t).
Proof.
  intros [Hne Hw]. split.
  - now destruct t.
  - now rewrite allChars_word_toLowerCase.
Qed.

(** The words returned are tokens. *)
Lemma getUniqueWords_token blocks excluded :
  Forall token (getUniqueWords blocks excluded).
Proof.
  apply Forall_forall. intros w Hw.
  apply getUniqueWords_In in Hw. destruct Hw as (Hin & _).
  apply in_map_iff in Hin. destruct Hin as (t & <- & Ht).
  apply token_toLowerCase.
  pose proof (matchWords_tokens (join " " blocks)) as Hall.
  rewrite Forall_forall in Hall. now apply Hall.
Qed.

(** Two sorted lists without duplicates that have the same members are
    equal. *)
Lemma ascending_ext l1 :
  forall l2,
    ascending l1 -> ascending l2 -> NoDup l1 -> NoDup l2 ->
    (forall x, In x l1 <-> In x l2) -> l1 = l2.
Proof.
  unfold ascending.
  induction l1 as [|x t1 IH]; intros l2 H1 H2 N1 N2 Hmem.
  - destruct l2 as [|y t2]; [reflexivity|].
    exfalso. apply (proj2 (Hmem y)). now left.
  - destruct l2 as [|y t2].
    { exfalso. apply (proj1 (Hmem x)). now left. }
    apply Sorted_StronglySorted in H1; [|intros a b c; apply leb_trans].
    apply Sorted_StronglySorted in H2; [|intros a b c; apply leb_trans].
    apply StronglySorted_inv in H1. destruct H1 as [S1 F1].
    apply StronglySorted_inv in H2. destruct H2 as [S2 F2].
    rewrite Forall_forall in F1, F2.
    inversion N1 as [|? ? Nx N1']; subst. inversion N2 as [|? ? Ny N2']; subst.
    assert (Exy : x = y).
    { destruct (proj1 (Hmem x) (or_introl eq_refl)) as [E|Hx]; [now symmetry|].
      destruct (proj2 (Hmem y) (or_introl eq_refl)) as [E|Hy]; [exact E|].
      apply String.leb_antisym; [now apply F1 | now apply F2]. }
    subst y. f_equal.
    apply IH; try (now apply StronglySorted_Sorted); try assumption.
    intro z. split; intro Hz.
    + destruct (proj1 (Hmem z) (or_intror Hz)) as [E|Hz']; [|exact Hz'].
      subst z. contradiction.
    + destruct (proj2 (Hmem z) (or_intror Hz)) as [E|Hz']; [|exact Hz'].
      subst z. contradiction.
Qed.

(** Two results of [getUniqueWords] with the same members are equal. *)
Lemma getUniqueWords_ext b1 e1 b2 e2 :
  (forall w, In w (getUniqueWords b1 e1) <-> In w (getUniqueWords b2 e2)) ->
  getUniqueWords b1 e1 = getUniqueWords b2 e2.
Proof.
  apply ascending_ext;
    try apply sort_ascending; apply getUniqueWords_NoDup.
Qed.

Lemma flat_map_tokens ws : Forall token ws -> flat_map matchWords ws = ws.
Proof.
  induction 1 as [|w ws Hw _ IH]; simpl; [reflexivity|].
  now rewrite (matchWords_token w Hw), IH.
Qed.

Lemma map_lowercase ws : Forall lowercase ws -> map toLowerCase ws = ws.
Proof.
  induction 1 as [|w ws Hw _ IH]; simpl; [reflexivity|]. now rewrite Hw, IH.
Qed.

(** Characters that [encodeURI] keeps *)

Lemma hex_kept c :
  uriKept (hexDigit (nat_of_ascii c / 16)) = true /\
  uriKept (hexDigit (nat_of_ascii c mod 16)) = true.
Proof. destruct c as [[] [] [] [] [] [] [] []]; vm_compute; auto. Qed.

Lemma word_kept c : isWordChar c = true -> uriKept c = true.
Proof. by_cases_on c. Qed.

Lemma encodeURI_app s t : encodeURI (s ++ t) = (encodeURI s ++ encodeURI t)%string.
Proof.
  induction s as [|c s IH]; simpl; [reflexivity|].
  destruct (uriKept c); simpl; now rewrite IH.
Qed.

Lemma encodeURI_kept s : allChars uriKept s = true -> encodeURI s = s.
Proof.
  induction s as [|c s IH]; simpl; [reflexivity|].
  intro H. apply andb_prop in H. destruct H as [Hc Hs]. now rewrite Hc, IH.
Qed.

Lemma encodeURI_token w : token w -> encodeURI w = w.
Proof.
  intros [_ Hw]. apply encodeURI_kept.
  apply allChars_impl with isWordChar; [apply word_kept | exact Hw].
Qed.

Lemma encodeURI_safe s :
  allChars (fun c => uriKept c || Ascii.eqb c "%") (encodeURI s) = true.
Proof.
  induction s as [|c s IH]; [reflexivity|].
  cbn [encodeURI]. destruct (uriKept c) eqn:E; cbn [allChars].
  - now rewrite E, IH.
  - destruct (hex_kept c) as [H1 H2]. now rewrite H1, H2, IH.
Qed.

Lemma concat_nothing x xs :
  String.concat "" (x :: xs) = (x ++ String.concat "" xs)%string.
Proof. destruct xs; simpl; [now rewrite ListFacts.append_empty | reflexivity]. Qed.

(** The encoded lines of the CSV payload. *)
Lemma encodeURI_lines ws :
  forall w,
    Forall token (w :: ws) ->
    encodeURI (join (String LF "") (w :: ws))
    = (w ++ String.concat "" (map (fun x => "%0A" ++ x) ws))%string.
Proof.
  unfold join. induction ws as [|w2 ws IH]; intros w H;
    inversion H as [|? ? Hw Hrest]; subst.
  - simpl. now rewrite (encodeURI_token w Hw), ListFacts.append_empty.
  - change (String.concat (String LF "") (w :: w2 :: ws))
      with (w ++ String LF "" ++ String.concat (String LF "") (w2 :: ws))%string.
    rewrite !encodeURI_app, (encodeURI_token w Hw), (IH w2 Hrest).
    rewrite map_cons, concat_nothing. reflexivity.
Qed.

End WordMore.

(** * Properties of the page: selection and processing *)

Module PageFacts.

Import JS App Page PageSpec.

(** The handlers of the selection keep it valid. *)
Lemma perform_valid p a : validSelection p -> offered p a -> validSelection (perform a p).
Proof.
  unfold validSelection. intros (H0 & Hse & Hd) Ha.
  destruct a as [mk file| |d|v|v]; simpl in *.
  - unfold handleFileChange. destruct (isProcessing p); simpl; auto.
  - unfold handleRemoveVideo. destruct (isProcessing p); simpl; auto.
    repeat split; apply Qle_refl.
  - repeat split; [apply Qle_refl | exact Ha | apply Qle_refl].
  - destruct Ha as [Hv0 Hvd]. unfold handleStartChange.
    destruct (Qle_bool (snd (selection p)) v) eqn:E; simpl.
    + repeat split; [exact Hv0 | apply Qle_refl | exact Hvd].
    + repeat split; [exact Hv0 | | exact Hd].
      apply Qlt_le_weak, Qnot_le_lt. intro Hle.
      apply Qle_bool_iff in Hle. congruence.
  - destruct Ha as [Hv0 Hvd]. unfold handleEndChange.
    destruct (Qle_bool v (fst (selection p))) eqn:E; simpl.
    + repeat split; [exact Hv0 | apply Qle_refl | exact Hvd].
    + repeat split; [exact H0 | | exact Hvd].
      apply Qlt_le_weak, Qnot_le_lt. intro Hle.
      apply Qle_bool_iff in Hle. congruence.
Qed.

Lemma mounted_valid pf : validSelection (mounted pf).
Proof. repeat split; apply Qle_refl. Qed.

(** One increment of a counter that is on track. *)
Lemma onTrack_step endTime (c : Z) (n : nat) :
  onTrack endTime c (S n) ->
  (increment c <= Qfloor endTime)%Z /\ onTrack endTime (increment c) n.
Proof.
  unfold onTrack.
  intros [H | [(Hlo & Hhi & Hn) | [(Hc & Hst & He) | (Hc & Hd & Hlt & Hde)]]];
    [discriminate | | |].
  - rewrite SamplerFacts.increment_exact by lia. split; [lia|].
    destruct n as [|n]; [now left|]. right.
    destruct (Z_lt_ge_dec (c + 1) SamplerSpec.maxSafe) as [Hin | Hout].
    + left. lia.
    + right. left. replace (c + 1)%Z with SamplerSpec.maxSafe by lia.
      split; [lia|]. split; [reflexivity | lia].
  - rewrite Hst. split; [exact He|]. right. right. left. now rewrite Hst.
  - destruct (DoubleFacts.increment_sticks c Hc Hd) as [Hge Hst].
    pose proof (DoubleFacts.increment_below c (Qfloor endTime) Hc Hlt Hde) as Hle.
    split; [exact Hle|]. right. right. left. split; [lia|]. now split.
Qed.

(** Fewer [seeked] events than the counter has increments up to
    [floor(endTime)]: the promise stays pending. *)
Lemma answerSeeks_waits browser startTime endTime (fuel : nat) :
  forall s : VideoUtils.Sampler,
    VideoUtils.context browser = true ->
    VideoUtils.seeking s = Some (VideoUtils.currentTime s) ->
    VideoUtils.promise s = VideoUtils.Pending ->
    onTrack endTime (VideoUtils.currentTime s) fuel ->
    VideoUtils.promise (VideoUtils.answerSeeks browser startTime endTime fuel s)
    = VideoUtils.Pending.
Proof.
  induction fuel as [|fuel IH]; intros s Hctx Hseek Hpend Htrack;
    [exact Hpend|].
  cbn [VideoUtils.answerSeeks]. rewrite Hseek.
  destruct (onTrack_step _ _ _ Htrack) as [Hle Hnext].
  assert (Hin : Qle_bool (inject_Z (increment (VideoUtils.currentTime s))) endTime = true)
    by (now apply SamplerFacts.counter_le_end).
  apply IH; try assumption;
    unfold VideoUtils.dispatch, VideoUtils.arrive, VideoUtils.captureFrame;
    rewrite Hseek, Hctx;
    cbn [negb VideoUtils.currentTime VideoUtils.seeking VideoUtils.promise];
    rewrite Hin; cbn [VideoUtils.currentTime VideoUtils.seeking VideoUtils.promise];
    try reflexivity; try assumption.
  now rewrite Hpend.
Qed.

(** Without a canvas context the first [seeked] rejects the promise. *)
Lemma no_context_run browser startTime endTime fuel :
  VideoUtils.context browser = false ->
  (1 <= fuel)%nat ->
  let s := VideoUtils.extractFramesFromVideo browser startTime endTime fuel in
  VideoUtils.promise s = VideoUtils.Rejected "Canvas context is not available." /\
  VideoUtils.progress s = [].
Proof.
  intros Hctx Hfuel. destruct fuel as [|fuel]; [lia|].
  cbn zeta. unfold VideoUtils.extractFramesFromVideo. simpl.
  unfold VideoUtils.captureFrame. rewrite Hctx. simpl.
  destruct fuel; simpl; auto.
Qed.

(** Fewer [seeked] events than frames: the run is still waiting. *)
Lemma extract_waits browser startTime endTime fuel :
  VideoUtils.context browser = true ->
  (- SamplerSpec.maxSafe <= Qfloor startTime)%Z ->
  isDouble (Qfloor startTime) ->
  isDouble (Qfloor endTime) ->
  (fuel < frameCount startTime endTime)%nat ->
  VideoUtils.promise (VideoUtils.extractFramesFromVideo browser startTime endTime fuel)
  = VideoUtils.Pending.
Proof.
  intros Hctx Hlo Hds Hde Hfuel. unfold frameCount in Hfuel.
  destruct fuel as [|fuel]; [reflexivity|].
  apply answerSeeks_waits; try reflexivity; try assumption.
  cbn [VideoUtils.dispatch VideoUtils.onLoadedMetadata VideoUtils.created
       VideoUtils.currentTime].
  unfold onTrack. right.
  destruct (Z_lt_ge_dec (Qfloor startTime) SamplerSpec.maxSafe) as [Hin | Hout].
  - left. lia.
  - right. right. repeat split; try assumption; lia.
Qed.

Lemma last_all (P : string -> Prop) (l : list string) (d : string) :
  Forall P l -> P d -> P (last l d).
Proof.
  intros Hl Hd. induction Hl as [|x l Hx Hl IH]; [exact Hd|].
  destruct l; [exact Hx | exact IH].
Qed.

End PageFacts.
(** * More about the code: the frame sampler *)

Module SamplerProps.

Import VideoUtils SamplerSpec.

(** X1.  Whatever events reach the listeners, in whatever order, and while
    the counter stays within the safe integers (it starts at
    [floor(startTime)], not below -2^53, and has not passed 2^53), the [id]s
    of the frames captured so far are the contiguous integers from
    [floor(startTime)] on, so they are strictly increasing. *)
Theorem ids_contiguous_on_every_trace :
  forall (browser : Browser) (startTime endTime : Q) (events : list Event),
    let s := after browser startTime endTime events in
    (- maxSafe <= Qfloor startTime)%Z ->
    (Qfloor startTime + Z.of_nat (List.length (frames s)) <= maxSafe)%Z ->
    map id (frames s) = zrange (Qfloor startTime) (List.length (frames s)) /\
    Sorted Z.lt (map id (frames s)).
Proof.
  intros browser startTime endTime events s Hlo Hhi.
  destruct (SamplerTraces.Counted_after browser startTime endTime events Hlo Hhi)
    as [H _].
  fold s in H. split; [exact H|]. rewrite H. apply SamplerFacts.zrange_increasing.
Qed.

Lemma ids_contiguous_on_every_trace_witness :
  let s := after sampleBrowser (9 # 2) (6 # 1)
             [loadedmetadata; seeked; error None; seeked] in
  map id (frames s) = zrange 4 (List.length (frames s)) /\
  Sorted Z.lt (map id (frames s)).
Proof.
  apply (ids_contiguous_on_every_trace sampleBrowser (9 # 2) (6 # 1)
           [loadedmetadata; seeked; error None; seeked]).
  - vm_compute. discriminate.
  - vm_compute. discriminate.
Defined.

(** X2.  On every sequence of events: while the promise is pending the
    object URL has not been released, and a promise that is resolved carries
    at least one frame and the URL has been released. *)
Theorem resolved_frames_not_empty :
  forall (browser : Browser) (startTime endTime : Q) (events : list Event),
    let s := after browser startTime endTime events in
    (promise s = Pending -> revoked s = 0%nat) /\
    (forall fs, promise s = Resolved fs -> fs <> [] /\ (1 <= revoked s)%nat).
Proof.
  intros browser startTime endTime events s.
  destruct (SamplerTraces.Kept_after browser startTime endTime events) as [_ H4 H5 _].
  now split.
Qed.

Lemma resolved_frames_not_empty_witness :
  [{| id := 4%Z; imageDataUrl := "data:image/jpeg;base64,4" |}] <> [] /\
  (1 <= revoked (after sampleBrowser (4 # 1) (4 # 1) [loadedmetadata; seeked]))%nat.
Proof.
  apply (proj2 (resolved_frames_not_empty sampleBrowser (4 # 1) (4 # 1)
                  [loadedmetadata; seeked])).
  reflexivity.
Defined.

(** X3.  A rejected promise keeps its reason under every later event.  A
    resolved promise stays resolved, and its value is the sampler's own
    [frames] array, not a copy: a [seeked] event that arrives after the
    resolution still appends its frame, so the value the caller holds is the
    frames it was resolved with followed by the frames captured later. *)
Theorem promise_settles_once :
  forall (browser : Browser) (startTime endTime : Q) (events more : list Event),
    let s := after browser startTime endTime events in
    let s' := after browser startTime endTime (events ++ more) in
    (forall reason, promise s = Rejected reason -> promise s' = Rejected reason) /\
    (forall fs, promise s = Resolved fs ->
       fs = frames s /\
       exists later,
         promise s' = Resolved (fs ++ later) /\ frames s' = (fs ++ later)%list).
Proof.
  intros browser startTime endTime events more s s'. subst s s'.
  unfold after. rewrite fold_left_app. split.
  - intros reason H. now apply SamplerTraces.rejected_fold.
  - intros fs H.
    pose proof (SamplerTraces.Kept_after browser startTime endTime events) as HK.
    split; [now apply (PageSpec.kept_live _ _ _ _ HK)|].
    now apply SamplerTraces.resolved_fold.
Qed.

Lemma promise_settles_once_witness :
  promise (after sampleBrowser (0 # 1) (2 # 1)
             ([loadedmetadata; error None] ++ [seeked; seeked; seeked]))
  = Rejected "Error loading video: Unknown error" /\
  exists later,
    promise (after sampleBrowser (4 # 1) (4 # 1) ([loadedmetadata; seeked] ++ [seeked]))
    = Resolved ([{| id := 4%Z; imageDataUrl := "data:image/jpeg;base64,4" |}] ++ later) /\
    frames (after sampleBrowser (4 # 1) (4 # 1) ([loadedmetadata; seeked] ++ [seeked]))
    = ([{| id := 4%Z; imageDataUrl := "data:image/jpeg;base64,4" |}] ++ later)%list.
Proof.
  split.
  - apply (proj1 (promise_settles_once sampleBrowser (0 # 1) (2 # 1)
                    [loadedmetadata; error None] [seeked; seeked; seeked])).
    reflexivity.
  - apply (proj2 (promise_settles_once sampleBrowser (4 # 1) (4 # 1)
                    [loadedmetadata; seeked] [seeked])).
    reflexivity.
Defined.







(** X7.  When the media element answers fewer seeks than there are frames
    to take, the promise stays pending and the object URL is not released:
    the sampler has no timeout.  This holds also where the counter no longer
    counts by one, from 2^53 on: there it stops advancing and the sampler
    waits on.  The times are JS numbers, so their whole seconds are doubles,
    and [floor(startTime)] is not below -2^53: below that the increment
    skips an integer and the sampler is done one frame early
    ([SamplerTraces.counter_skips_outside_safe_integers]). *)
Theorem sampler_waits_for_seeked :
  forall (browser : Browser) (startTime endTime : Q) (fuel : nat),
    context browser = true ->
    (- maxSafe <= Qfloor startTime)%Z ->
    JS.isDouble (Qfloor startTime) ->
    JS.isDouble (Qfloor endTime) ->
    (fuel < PageSpec.frameCount startTime endTime)%nat ->
    let s := extractFramesFromVideo browser startTime endTime fuel in
    promise s = Pending /\ revoked s = 0%nat.
Proof.
  intros browser startTime endTime fuel Hctx Hlo Hds Hde Hfuel s.
  assert (Hp : promise s = Pending)
    by (now apply PageFacts.extract_waits).
  split; [exact Hp|].
  destruct (SamplerTraces.Kept_extract browser startTime endTime fuel) as [_ H _ _].
  now apply H.
Qed.

Lemma sampler_waits_for_seeked_witness :
  (let s := extractFramesFromVideo sampleBrowser (0 # 1) (9 # 1) 4 in
   promise s = Pending /\ revoked s = 0%nat) /\
  (let s := extractFramesFromVideo sampleBrowser
              (inject_Z maxSafe) (inject_Z (maxSafe + 2)) 2 in
   promise s = Pending /\ revoked s = 0%nat).
Proof.
  split.
  - apply (sampler_waits_for_seeked sampleBrowser (0 # 1) (9 # 1) 4).
    + reflexivity.
    + vm_compute. discriminate.
    + reflexivity.
    + reflexivity.
    + vm_compute. lia.
  - apply (sampler_waits_for_seeked sampleBrowser
             (inject_Z maxSafe) (inject_Z (maxSafe + 2)) 2).
    + reflexivity.
    + vm_compute. discriminate.
    + vm_compute. reflexivity.
    + vm_compute. reflexivity.
    + vm_compute. lia.
Defined.

End SamplerProps.

(** * More about the code: the OCR service *)

Module GeminiProps.

Import JS GeminiService OcrSpec PageSpec.

(** X8.  A data URL made of a mime type and a payload, neither with a
    comma and the mime type on one line, is taken apart into exactly that
    mime type and that payload. *)
Theorem dataUrl_round_trip :
  forall mime payload : string,
    plainMime mime ->
    noComma payload ->
    dataUrlToPart ("data:" ++ mime ++ ";base64," ++ payload)
    = Normal {| data := Some payload; mimeType := mime |}.
Proof.
  intros mime payload Hm Hp.
  assert (Hmc : noComma mime).
  { unfold plainMime, noComma in *.
    apply WordFacts.allChars_impl with
      (fun c => negb (Ascii.eqb c ",") && negb (isLineTerminator c));
      [|exact Hm].
    intros c Hc. now apply andb_prop in Hc. }
  unfold dataUrlToPart.
  rewrite DataUrlFacts.matchDataUrl_data, (DataUrlFacts.dotStarThen_mime _ _ Hm Hp).
  rewrite DataUrlFacts.dataUrl_text, DataUrlFacts.split_second; [reflexivity | | exact Hp].
  change (noComma ("data:" ++ (mime ++ ";base64"))).
  apply DataUrlFacts.noComma_app. split; [reflexivity|].
  apply DataUrlFacts.noComma_app. split; [exact Hmc | reflexivity].
Qed.

Lemma dataUrl_round_trip_witness :
  dataUrlToPart ("data:" ++ "image/jpeg" ++ ";base64," ++ "AAAA")
  = Normal {| data := Some "AAAA"; mimeType := "image/jpeg" |}.
Proof.
  apply (dataUrl_round_trip "image/jpeg" "AAAA"); reflexivity.
Defined.

(** X9.  [dataUrlToPart] either throws "Invalid data URL format" or returns
    a part whose mime type, on one line, stands in the URL between "data:"
    and ";base64,", and whose data is the piece of the URL after its first
    comma. *)
Theorem dataUrl_parts_or_error :
  forall url : string,
    dataUrlToPart url = Throw "Invalid data URL format" \/
    exists part : Part,
      dataUrlToPart url = Normal part /\
      (exists rest, url = ("data:" ++ mimeType part ++ ";base64," ++ rest)%string) /\
      allChars (fun c => negb (isLineTerminator c)) (mimeType part) = true /\
      data part = nth_error (split "," url) 1.
Proof.
  intro url. unfold dataUrlToPart.
  destruct (matchDataUrl url) as [mime|] eqn:E; [right | now left].
  eexists. split; [reflexivity|]. simpl.
  destruct (DataUrlFacts.matchDataUrl_sound url mime E) as [Hrest Hline].
  repeat split; assumption.
Qed.


(** X11.  Frames whose image is not a base64 data URL (a canvas of size
    zero gives "data:,") are skipped without a request: whatever the
    collaborator would answer, the result is empty and every frame is logged
    with "Invalid data URL format". *)
Theorem frames_without_data_url_are_skipped :
  forall (ai : Client) (frames : list Frame),
    Forall (fun f => matchDataUrl (imageDataUrl f) = None) frames ->
    exists run : Run,
      analyzeFramesForText (Normal ai) frames = Normal run /\
      allWords run = [] /\
      consoleErrors run = map (fun f => (id f, "Invalid data URL format")) frames.
Proof.
  intros ai frames H. eexists. split; [reflexivity|].
  rewrite LoopFacts.loop_consoleErrors, OcrFacts.loop_allWords.
  destruct (LoopFacts.failures_invalid ai frames 0 H) as [Hf Ht].
  now rewrite Hf, Ht.
Qed.

Lemma frames_without_data_url_are_skipped_witness :
  exists run : Run,
    analyzeFramesForText (Normal failsOnSecond)
      [{| id := 0%Z; imageDataUrl := "data:," |};
       {| id := 1%Z; imageDataUrl := "blob:clip" |}]
    = Normal run /\
    allWords run = [] /\
    consoleErrors run
    = map (fun f => (id f, "Invalid data URL format"))
        [{| id := 0%Z; imageDataUrl := "data:," |};
         {| id := 1%Z; imageDataUrl := "blob:clip" |}].
Proof.
  apply (frames_without_data_url_are_skipped failsOnSecond).
  repeat constructor.
Defined.

End GeminiProps.

(** * More about the code: normalisation, exclusion list, CSV export *)

Module WordProps.

Import JS App WordSpec.

(** X12.  The tokens of the joined text are the tokens of the first block,
    then those of the second, and so on: no token runs across two blocks. *)
Theorem tokens_stay_within_blocks :
  forall blocks : list string,
    matchWords (join " " blocks) = flat_map matchWords blocks.
Proof.
  intro blocks. unfold join. induction blocks as [|b rest IH]; [reflexivity|].
  destruct rest as [|b2 rest].
  - simpl. now rewrite app_nil_r.
  - change (String.concat " " (b :: b2 :: rest))
      with (b ++ String " " (String.concat " " (b2 :: rest)))%string.
    unfold matchWords at 1. rewrite WordMore.wordRuns_space, IH. reflexivity.
Qed.

(** X13.  The result of [getUniqueWords] does not depend on the order of
    the text blocks nor on the order of the excluded words. *)
Theorem uniqueWords_ignores_order :
  forall blocks blocks' excluded excluded' : list string,
    Permutation blocks blocks' ->
    Permutation excluded excluded' ->
    getUniqueWords blocks excluded = getUniqueWords blocks' excluded'.
Proof.
  intros blocks blocks' excluded excluded' Hb He.
  apply WordMore.getUniqueWords_ext. intro w.
  rewrite !WordFacts.getUniqueWords_In, !WordMore.matchWords_join.
  assert (Hb' : Permutation (map toLowerCase (flat_map matchWords blocks))
                            (map toLowerCase (flat_map matchWords blocks')))
    by (apply Permutation_map, Permutation_flat_map, Hb).
  assert (He' : Permutation (map toLowerCase excluded) (map toLowerCase excluded'))
    by (apply Permutation_map, He).
  split; intros (H1 & H2 & H3); repeat split; try assumption.
  - now apply (Permutation_in _ Hb').
  - intro H. apply H3. now apply (Permutation_in _ (Permutation_sym He')).
  - now apply (Permutation_in _ (Permutation_sym Hb')).
  - intro H. apply H3. now apply (Permutation_in _ He').
Qed.

Lemma uniqueWords_ignores_order_witness :
  getUniqueWords ["Hello World"; "hello 123"] ["x"; "y"]
  = getUniqueWords ["hello 123"; "Hello World"] ["y"; "x"].
Proof.
  apply (uniqueWords_ignores_order
           ["Hello World"; "hello 123"] ["hello 123"; "Hello World"]
           ["x"; "y"] ["y"; "x"]); apply perm_swap.
Defined.

(** X14.  Normalising the words that [getUniqueWords] returned, as text
    blocks and with the same exclusions, returns them unchanged. *)
Theorem uniqueWords_idempotent :
  forall blocks excluded : list string,
    getUniqueWords (getUniqueWords blocks excluded) excluded
    = getUniqueWords blocks excluded.
Proof.
  intros blocks excluded.
  apply WordMore.ascending_ext;
    try apply WordFacts.sort_ascending; try apply WordFacts.getUniqueWords_NoDup.
  intro w. rewrite (WordFacts.getUniqueWords_In (getUniqueWords blocks excluded)).
  rewrite WordMore.matchWords_join,
    (WordMore.flat_map_tokens _ (WordMore.getUniqueWords_token blocks excluded)),
    WordMore.map_lowercase.
  - split; [tauto|]. intro H. split; [exact H|].
    apply WordFacts.getUniqueWords_In in H. tauto.
  - eapply Forall_impl; [|apply (WordFacts.getUniqueWords_tidy blocks excluded)].
    intros x Hx. apply Hx.
Qed.

(** X15.  Excluding words is the same as normalising without exclusions
    and then dropping the words that equal a lower-cased excluded word. *)
Theorem exclusion_is_a_filter :
  forall blocks excluded : list string,
    getUniqueWords blocks excluded
    = filter (fun w => negb (includes (map toLowerCase excluded) w))
             (getUniqueWords blocks []).
Proof.
  intros blocks excluded.
  apply WordMore.ascending_ext.
  - apply WordFacts.sort_ascending.
  - apply WordFacts.filter_ascending, WordFacts.sort_ascending.
  - apply WordFacts.getUniqueWords_NoDup.
  - apply NoDup_filter, WordFacts.getUniqueWords_NoDup.
  - intro w. rewrite filter_In, !WordFacts.getUniqueWords_In, negb_true_iff,
      WordFacts.includes_not_In. simpl. tauto.
Qed.

(** X16.  After a double click on a displayed word, the displayed words are
    what normalising the same text with the new exclusion list gives. *)
Theorem double_click_keeps_display_consistent :
  forall (s : State) (blocks : list string) (w : string),
    uniqueWords s = getUniqueWords blocks (excludedWords s) ->
    In w (uniqueWords s) ->
    uniqueWords (handleWordDoubleClick w s)
    = getUniqueWords blocks (excludedWords (handleWordDoubleClick w s)).
Proof.
  intros s blocks w Hu Hw.
  assert (Hlow : toLowerCase w = w).
  { pose proof (WordFacts.getUniqueWords_tidy blocks (excludedWords s)) as Ht.
    rewrite <- Hu, Forall_forall in Ht. apply (Ht w Hw). }
  assert (Hnew : includes (excludedWords s) w = false).
  { apply WordFacts.includes_not_In. intro Hin.
    rewrite Hu in Hw. apply WordFacts.getUniqueWords_In in Hw.
    destruct Hw as (_ & _ & Hex). apply Hex. rewrite <- Hlow. now apply in_map. }
  unfold handleWordDoubleClick. rewrite Hnew. simpl. rewrite Hu.
  apply WordMore.ascending_ext.
  - apply WordFacts.filter_ascending, WordFacts.sort_ascending.
  - apply WordFacts.sort_ascending.
  - apply NoDup_filter, WordFacts.getUniqueWords_NoDup.
  - apply WordFacts.getUniqueWords_NoDup.
  - intro x. rewrite filter_In, !WordFacts.getUniqueWords_In, negb_true_iff,
      String.eqb_neq.
    assert (Hmem : In x (map toLowerCase (sort (excludedWords s ++ [w])))
                   <-> In x (map toLowerCase (excludedWords s)) \/ x = w).
    { rewrite !in_map_iff. split.
      - intros (y & Hy & Hin).
        apply (Permutation_in _ (Permutation_sym (WordFacts.sort_Permutation _))) in Hin.
        apply in_app_or in Hin. destruct Hin as [Hin | [<- | []]].
        + left. now exists y.
        + right. congruence.
      - intros [(y & Hy & Hin) | ->].
        + exists y. split; [exact Hy|].
          apply (Permutation_in _ (WordFacts.sort_Permutation _)).
          apply in_or_app. now left.
        + exists w. split; [exact Hlow|].
          apply (Permutation_in _ (WordFacts.sort_Permutation _)).
          apply in_or_app. right. now left. }
    rewrite Hmem. tauto.
Qed.

Lemma double_click_keeps_display_consistent_witness :
  uniqueWords
    (handleWordDoubleClick "score"
       {| excludedWords := ["vip"];
          uniqueWords := getUniqueWords ["VIP Score high score"] ["vip"];
          newExcludedWord := "" |})
  = getUniqueWords ["VIP Score high score"]
      (excludedWords
         (handleWordDoubleClick "score"
            {| excludedWords := ["vip"];
               uniqueWords := getUniqueWords ["VIP Score high score"] ["vip"];
               newExcludedWord := "" |})).
Proof.
  apply (double_click_keeps_display_consistent
           {| excludedWords := ["vip"];
              uniqueWords := getUniqueWords ["VIP Score high score"] ["vip"];
              newExcludedWord := "" |}
           ["VIP Score high score"] "score").
  - reflexivity.
  - simpl. right. left. reflexivity.
Defined.

(** X17.  On a list that satisfies the invariant, adding a new word and
    then removing it gives back the list. *)
Theorem add_then_remove_restores :
  forall s : State,
    invariant (excludedWords s) ->
    PageSpec.typed s <> EmptyString ->
    ~ In (PageSpec.typed s) (excludedWords s) ->
    excludedWords
      (handleRemoveExcludedWord (PageSpec.typed s) (handleAddExcludedWord s))
    = excludedWords s.
Proof.
  unfold PageSpec.typed. intros s [[_ Hnd] Hasc] Hne Hnew.
  unfold handleAddExcludedWord.
  apply WordFacts.truthy_nonempty in Hne. apply WordFacts.includes_not_In in Hnew.
  rewrite Hne, Hnew. simpl.
  apply WordFacts.includes_not_In in Hnew.
  apply WordMore.ascending_ext.
  - apply WordFacts.filter_ascending, WordFacts.sort_ascending.
  - exact Hasc.
  - apply NoDup_filter.
    eapply Permutation_NoDup; [apply WordFacts.sort_Permutation|].
    eapply Permutation_NoDup; [apply Permutation_cons_append|].
    now constructor.
  - exact Hnd.
  - intro x. rewrite filter_In, negb_true_iff, String.eqb_neq. split.
    + intros [Hin Hx].
      apply (Permutation_in _ (Permutation_sym (WordFacts.sort_Permutation _))) in Hin.
      apply in_app_or in Hin. destruct Hin as [Hin | [E | []]]; [exact Hin | congruence].
    + intro Hin. split.
      * apply (Permutation_in _ (WordFacts.sort_Permutation _)).
        apply in_or_app. now left.
      * intros ->. contradiction.
Qed.

Lemma add_then_remove_restores_witness :
  excludedWords
    (handleRemoveExcludedWord "spam"
       (handleAddExcludedWord
          {| excludedWords := ["eggs"; "vip"]; uniqueWords := [];
             newExcludedWord := " Spam " |}))
  = ["eggs"; "vip"].
Proof.
  apply (add_then_remove_restores
           {| excludedWords := ["eggs"; "vip"]; uniqueWords := [];
              newExcludedWord := " Spam " |}).
  - split; [apply WordFacts.cleanb_sound; reflexivity|].
    repeat constructor.
  - discriminate.
  - simpl. intros [H | [H | []]]; discriminate.
Defined.

(** X18.  The add handler clears the input field; the list afterwards holds
    its former members and, unless the input was blank, the trimmed and
    lower-cased input, and nothing else. *)
Theorem add_inserts_the_typed_word :
  forall (s : State) (x : string),
    newExcludedWord (handleAddExcludedWord s) = EmptyString /\
    (In x (excludedWords (handleAddExcludedWord s)) <->
     In x (excludedWords s) \/ (x = PageSpec.typed s /\ x <> EmptyString)).
Proof.
  intros s x. unfold PageSpec.typed, handleAddExcludedWord.
  destruct (truthy (toLowerCase (trim (newExcludedWord s)))) eqn:Ht; simpl.
  - apply WordFacts.truthy_nonempty in Ht.
    destruct (includes (excludedWords s) (toLowerCase (trim (newExcludedWord s))))
      eqn:Hi; simpl; (split; [reflexivity|]).
    + apply WordFacts.includes_In in Hi. split; [tauto|].
      intros [H | [-> _]]; assumption.
    + split.
      * intro H.
        apply (Permutation_in _ (Permutation_sym (WordFacts.sort_Permutation _))) in H.
        apply in_app_or in H. destruct H as [H | [<- | []]]; [now left | now right].
      * intro H. apply (Permutation_in _ (WordFacts.sort_Permutation _)).
        apply in_or_app. destruct H as [H | [-> _]]; [now left | right; now left].
  - split; [reflexivity|]. split; [tauto|].
    intros [H | [-> Hne]]; [exact H|].
    apply WordFacts.truthy_nonempty in Hne. congruence.
Qed.

(** X19.  Whatever the unique words are, the link that [downloadCsv]
    clicks is named extracted_words.csv and its target holds only characters
    that [encodeURI] keeps and per cent signs: no raw space and no raw line
    feed. *)
Theorem csv_link_is_encoded :
  forall (s : State) (link : Link),
    In (Click link) (downloadCsv s) ->
    download link = "extracted_words.csv" /\
    allChars (fun c => uriKept c || Ascii.eqb c "%") (href link) = true.
Proof.
  intros s link H. unfold downloadCsv in H.
  destruct (uniqueWords s) as [|w ws]; [contradiction|].
  destruct H as [H | [H | [H | []]]]; try discriminate.
  injection H as <-. split; [reflexivity|]. apply WordMore.encodeURI_safe.
Qed.

Lemma csv_link_is_encoded_witness :
  download {| href := encodeURI ("data:text/csv;charset=utf-8,"
                                 ++ csvPayload ["a b"; "c"]);
              download := "extracted_words.csv" |}
  = "extracted_words.csv" /\
  allChars (fun c => uriKept c || Ascii.eqb c "%")
    (href {| href := encodeURI ("data:text/csv;charset=utf-8,"
                                ++ csvPayload ["a b"; "c"]);
             download := "extracted_words.csv" |}) = true.
Proof.
  apply (csv_link_is_encoded (setUniqueWords ["a b"; "c"] (mounted emptyStorage))).
  simpl. right. left. reflexivity.
Defined.

(** X20.  For a non-empty list of word tokens the CSV link targets the
    data URL of "Extracted Words" with its space encoded, followed by every
    word after an encoded line feed, the words themselves unchanged. *)
Theorem csv_link_of_tokens :
  forall s : State,
    uniqueWords s <> [] ->
    Forall token (uniqueWords s) ->
    downloadCsv s
    = [AppendChild {| href := PageSpec.csvHref (uniqueWords s);
                      download := "extracted_words.csv" |};
       Click {| href := PageSpec.csvHref (uniqueWords s);
                download := "extracted_words.csv" |};
       RemoveChild {| href := PageSpec.csvHref (uniqueWords s);
                      download := "extracted_words.csv" |}].
Proof.
  intros s Hne Htok. unfold downloadCsv.
  destruct (uniqueWords s) as [|w ws]; [congruence|].
  assert (E : encodeURI ("data:text/csv;charset=utf-8," ++ csvPayload (w :: ws))
              = PageSpec.csvHref (w :: ws)).
  { unfold csvPayload, PageSpec.csvHref, csvHeader.
    rewrite !WordMore.encodeURI_app, (WordMore.encodeURI_lines ws w Htok).
    rewrite map_cons, WordMore.concat_nothing. reflexivity. }
  rewrite E. reflexivity.
Qed.

Lemma csv_link_of_tokens_witness :
  downloadCsv (setUniqueWords ["hello"; "world"] (mounted emptyStorage))
  = [AppendChild {| href := "data:text/csv;charset=utf-8,Extracted%20Words%0Ahello%0Aworld";
                    download := "extracted_words.csv" |};
     Click {| href := "data:text/csv;charset=utf-8,Extracted%20Words%0Ahello%0Aworld";
              download := "extracted_words.csv" |};
     RemoveChild {| href := "data:text/csv;charset=utf-8,Extracted%20Words%0Ahello%0Aworld";
                    download := "extracted_words.csv" |}].
Proof.
  apply (csv_link_of_tokens (setUniqueWords ["hello"; "world"] (mounted emptyStorage))).
  - simpl. discriminate.
  - simpl. repeat constructor; discriminate.
Defined.

End WordProps.

(** * More about the code: the page *)

Module PageProps.

Import JS App Page PageSpec.

(** X21.  From the mounted page, whatever files are chosen or removed,
    durations reported and sliders moved, the selection stays within the
    video: [0 <= start <= end <= duration]. *)
Theorem selection_stays_valid :
  forall (pf : Platform) (p : Page),
    reachable (mounted pf) p -> validSelection p.
Proof.
  intros pf p H. induction H as [|p a Hr IH Ha].
  - apply PageFacts.mounted_valid.
  - now apply PageFacts.perform_valid.
Qed.

Lemma selection_stays_valid_witness :
  validSelection (perform (StartChange (8 # 1)) (perform (EndChange (3 # 1)) loaded)).
Proof.
  apply (selection_stays_valid WordSpec.emptyStorage).
  apply (reach_step _ _ (StartChange (8 # 1))).
  - apply (reach_step _ _ (EndChange (3 # 1))).
    + apply (reach_step _ _ (LoadedMetadata (21 # 2))).
      * apply (reach_step _ _ (FileChange (fun name => "blob:" ++ name) "clip.mp4"));
          [apply reach_start | exact I].
      * simpl. unfold Qle. simpl. lia.
    + simpl. unfold Qle. simpl. lia.
  - simpl. unfold Qle. simpl. lia.
Defined.

(** X22.  With a file chosen, a canvas context, a selection of times that
    are not negative and below 2^53, a media element that answers every seek
    and a client that could be built, processing ends with the controls
    enabled again, the frames of the selection (at least one), the unique
    words of the texts that [generateContent] answered for those frames, in
    their order and leaving out the requests that failed and the empty
    answers, under the exclusion list of the page, which is left as it was,
    and the status "Processing complete. Found N unique words." for that
    many words. *)
Theorem processing_succeeds :
  forall (browser : VideoUtils.Browser) (fuel : nat)
         (ai : GeminiService.Client) (p : Page),
    videoFile p <> None ->
    VideoUtils.context browser = true ->
    safeTimes (fst (selection p)) (snd (selection p)) ->
    (frameCount (fst (selection p)) (snd (selection p)) <= fuel)%nat ->
    let q := handleProcessVideo browser fuel (Normal ai) p in
    isProcessing q = false /\
    frames q
    = map (SamplerSpec.frameAt browser
             (VideoUtils.videoWidth browser, VideoUtils.videoHeight browser))
          (SamplerSpec.zrange (Qfloor (fst (selection p)))
             (frameCount (fst (selection p)) (snd (selection p)))) /\
    frames q <> [] /\
    uniqueWords (words q)
    = getUniqueWords (OcrSpec.collected ai 0 (frames q)) (excludedWords (words p)) /\
    excludedWords (words q) = excludedWords (words p) /\
    statusMessage q
    = "Processing complete. Found " ++ showNat (List.length (uniqueWords (words q)))
      ++ " unique words.".
Proof.
  intros browser fuel ai p Hfile Hctx Hsafe Hfuel q. subst q.
  unfold handleProcessVideo.
  destruct (videoFile p) as [file|]; [|congruence].
  destruct (SamplerTraces.extract_any browser (fst (selection p)) (snd (selection p))
              fuel Hctx Hsafe Hfuel) as (Hp & _ & _).
  cbn [selection setStatusMessage setWords setFrames setIsProcessing].
  rewrite Hp.
  assert (Hlen : (0 <? List.length
                        (map (SamplerSpec.frameAt browser
                                (VideoUtils.videoWidth browser,
                                 VideoUtils.videoHeight browser))
                             (SamplerSpec.zrange (Qfloor (fst (selection p)))
                                (frameCount (fst (selection p)) (snd (selection p))))))%nat
                 = true).
  { apply Nat.ltb_lt. rewrite length_map, SamplerFacts.zrange_length.
    unfold frameCount. lia. }
  rewrite Hlen.
  unfold GeminiService.analyzeFramesForText. cbn [bind].
  cbn [finish setStatusMessage setWords setFrames setIsProcessing isProcessing
         frames words statusMessage setUniqueWords uniqueWords excludedWords].
  rewrite OcrFacts.loop_allWords, OcrFacts.textBlocks_collected.
  cbn [GeminiService.allWords GeminiService.start app].
  repeat split.
  apply Nat.ltb_lt in Hlen. intro E. rewrite E in Hlen. simpl in Hlen. lia.
Qed.

Lemma processing_succeeds_witness :
  let q := handleProcessVideo SamplerSpec.sampleBrowser 3 (Normal OcrSpec.failsOnSecond)
             (perform (StartChange (8 # 1)) loaded) in
  isProcessing q = false /\
  frames q
  = map (SamplerSpec.frameAt SamplerSpec.sampleBrowser (640, 360)) [8%Z; 9%Z; 10%Z] /\
  frames q <> [] /\
  uniqueWords (words q)
  = getUniqueWords (OcrSpec.collected OcrSpec.failsOnSecond 0 (frames q))
      INITIAL_EXCLUDED_WORDS /\
  excludedWords (words q) = INITIAL_EXCLUDED_WORDS /\
  statusMessage q
  = "Processing complete. Found " ++ showNat (List.length (uniqueWords (words q)))
    ++ " unique words.".
Proof.
  apply (processing_succeeds SamplerSpec.sampleBrowser 3 OcrSpec.failsOnSecond
           (perform (StartChange (8 # 1)) loaded)).
  - simpl. discriminate.
  - reflexivity.
  - unfold safeTimes, Qle, Qlt. simpl. lia.
  - vm_compute. lia.
Defined.

(** X23.  Without a canvas context processing ends with the status
    "An error occurred: Canvas context is not available.", no frames and no
    words; when the client cannot be built, on a selection of times that are
    not negative and below 2^53, it ends with the status
    "An error occurred: " and the error, the extracted frames on display and
    no words.  Both times the controls are enabled again and the error is
    logged. *)
Theorem processing_reports_failures :
  forall (browser : VideoUtils.Browser) (fuel : nat) (p : Page),
    videoFile p <> None ->
    (VideoUtils.context browser = false ->
     (1 <= fuel)%nat ->
     forall newGoogleGenAI,
       let q := handleProcessVideo browser fuel newGoogleGenAI p in
       isProcessing q = false /\
       statusMessage q = "An error occurred: Canvas context is not available." /\
       frames q = [] /\
       uniqueWords (words q) = [] /\
       caught q = (caught p ++ ["Canvas context is not available."])%list) /\
    (VideoUtils.context browser = true ->
     safeTimes (fst (selection p)) (snd (selection p)) ->
     (frameCount (fst (selection p)) (snd (selection p)) <= fuel)%nat ->
     forall e : string,
       let q := handleProcessVideo browser fuel (Throw e) p in
       isProcessing q = false /\
       statusMessage q = "An error occurred: " ++ e /\
       List.length (frames q) = frameCount (fst (selection p)) (snd (selection p)) /\
       uniqueWords (words q) = [] /\
       caught q = (caught p ++ [e])%list).
Proof.
  intros browser fuel p Hfile. split.
  - intros Hctx Hfuel newAI q. subst q. unfold handleProcessVideo.
    destruct (videoFile p) as [file|]; [|congruence].
    destruct (PageFacts.no_context_run browser (fst (selection p))
                (snd (selection p)) fuel Hctx Hfuel) as [Hp Hg].
    cbn [selection setStatusMessage setWords setFrames setIsProcessing].
    rewrite Hp. repeat split.
  - intros Hctx Hsafe Hfuel e q. subst q. unfold handleProcessVideo.
    destruct (videoFile p) as [file|]; [|congruence].
    destruct (SamplerTraces.extract_any browser (fst (selection p)) (snd (selection p))
                fuel Hctx Hsafe Hfuel) as (Hp & _ & _).
    cbn [selection setStatusMessage setWords setFrames setIsProcessing].
    rewrite Hp.
    assert (Hlen : List.length
                     (map (SamplerSpec.frameAt browser
                             (VideoUtils.videoWidth browser,
                              VideoUtils.videoHeight browser))
                          (SamplerSpec.zrange (Qfloor (fst (selection p)))
                             (frameCount (fst (selection p)) (snd (selection p)))))
                   = frameCount (fst (selection p)) (snd (selection p)))
      by (now rewrite length_map, SamplerFacts.zrange_length).
    rewrite Hlen.
    assert (Hpos : (0 <? frameCount (fst (selection p)) (snd (selection p)))%nat = true)
      by (apply Nat.ltb_lt; unfold frameCount; lia).
    rewrite Hpos. cbn. rewrite Hlen. repeat split.
Qed.

Lemma processing_reports_failures_witness :
  (let q := handleProcessVideo SamplerSpec.noContextBrowser 1
              (Normal OcrSpec.failsOnSecond) loaded in
   isProcessing q = false /\
   statusMessage q = "An error occurred: Canvas context is not available." /\
   frames q = [] /\
   uniqueWords (words q) = [] /\
   caught q = (caught loaded ++ ["Canvas context is not available."])%list) /\
  (let q := handleProcessVideo SamplerSpec.sampleBrowser 11
              (Throw "An API Key must be set") loaded in
   isProcessing q = false /\
   statusMessage q = "An error occurred: " ++ "An API Key must be set" /\
   List.length (frames q) = frameCount (fst (selection loaded)) (snd (selection loaded)) /\
   uniqueWords (words q) = [] /\
   caught q = (caught loaded ++ ["An API Key must be set"])%list).
Proof.
  split.
  - apply (proj1 (processing_reports_failures SamplerSpec.noContextBrowser 1 loaded
                    ltac:(simpl; discriminate))).
    + reflexivity.
    + lia.
  - apply (proj2 (processing_reports_failures SamplerSpec.sampleBrowser 11 loaded
                    ltac:(simpl; discriminate))).
    + reflexivity.
    + unfold safeTimes, Qle, Qlt. simpl. lia.
    + vm_compute. lia.
Defined.

(** X24.  Processing never ends with the status "No frames were extracted
    from the selection.": a promise of the sampler that is resolved carries a
    frame, so that branch is never taken. *)
Theorem processing_never_reports_no_frames :
  forall (browser : VideoUtils.Browser) (fuel : nat)
         (newGoogleGenAI : Completion GeminiService.Client) (p : Page),
    videoFile p <> None ->
    statusMessage (handleProcessVideo browser fuel newGoogleGenAI p)
    <> "No frames were extracted from the selection.".
Proof.
  intros browser fuel newAI p Hfile. unfold handleProcessVideo.
  destruct (videoFile p) as [file|]; [|congruence].
  destruct (SamplerTraces.Kept_extract browser (fst (selection p))
              (snd (selection p)) fuel) as [Hprog _ Hres _].
  cbn [selection setStatusMessage setWords setFrames setIsProcessing statusMessage].
  destruct (VideoUtils.promise _) as [|fs|reason] eqn:Hp.
  - cbn [statusMessage]. apply PageFacts.last_all; [|discriminate].
    rewrite Hprog. apply Forall_forall. intros m Hm.
    apply in_map_iff in Hm. destruct Hm as (k & <- & _). discriminate.
  - destruct (Hres fs eq_refl) as [Hne _].
    destruct fs as [|f fs]; [congruence|]. cbn [List.length Nat.ltb Nat.leb].
    destruct (GeminiService.analyzeFramesForText newAI (f :: fs)); cbn; discriminate.
  - cbn. discriminate.
Qed.

Lemma processing_never_reports_no_frames_witness :
  statusMessage (handleProcessVideo SamplerSpec.sampleBrowser 11
                   (Normal OcrSpec.failsOnSecond) loaded)
  <> "No frames were extracted from the selection.".
Proof.
  apply (processing_never_reports_no_frames SamplerSpec.sampleBrowser 11
           (Normal OcrSpec.failsOnSecond) loaded).
  simpl. discriminate.
Defined.

(** X25.  When the media element answers fewer seeks than the selection
    has frames, processing never gets past the sampler: the controls stay
    disabled, and no frame and no word is displayed.  The ends of the
    selection are JS numbers, so their whole seconds are doubles, and the
    start is not below -2^53. *)
Theorem processing_waits_without_seeked :
  forall (browser : VideoUtils.Browser) (fuel : nat)
         (newGoogleGenAI : Completion GeminiService.Client) (p : Page),
    videoFile p <> None ->
    VideoUtils.context browser = true ->
    (- SamplerSpec.maxSafe <= Qfloor (fst (selection p)))%Z ->
    isDouble (Qfloor (fst (selection p))) ->
    isDouble (Qfloor (snd (selection p))) ->
    (fuel < frameCount (fst (selection p)) (snd (selection p)))%nat ->
    let q := handleProcessVideo browser fuel newGoogleGenAI p in
    isProcessing q = true /\ frames q = [] /\ uniqueWords (words q) = [].
Proof.
  intros browser fuel newAI p Hfile Hctx Hlo Hds Hde Hfuel q. subst q.
  unfold handleProcessVideo.
  destruct (videoFile p) as [file|]; [|congruence].
  cbn [selection setStatusMessage setWords setFrames setIsProcessing].
  rewrite (PageFacts.extract_waits browser _ _ fuel Hctx Hlo Hds Hde Hfuel).
  repeat split.
Qed.

Lemma processing_waits_without_seeked_witness :
  let q := handleProcessVideo SamplerSpec.sampleBrowser 5
             (Normal OcrSpec.failsOnSecond) loaded in
  isProcessing q = true /\ frames q = [] /\ uniqueWords (words q) = [].
Proof.
  apply (processing_waits_without_seeked SamplerSpec.sampleBrowser 5
           (Normal OcrSpec.failsOnSecond) loaded).
  - simpl. discriminate.
  - reflexivity.
  - vm_compute. discriminate.
  - reflexivity.
  - reflexivity.
  - vm_compute. lia.
Defined.

End PageProps.
